(** * Status aggregation for platform operators

    A shallow embedding of [controllers/aggregated_clusteroperator_controller.go]:
    the inspector [inspectPlatformOperators], the control loop [Reconcile] with
    its deferred status write, and the collaborators they call.

    Go packages become modules of the same name; [Writer] holds the writer of
    [aggregatedco] and [reconciler] the method [Reconcile], which need the
    state of an invocation.  Strings are byte strings ([String.string]);
    slices are lists; a pointer that may be [nil] is an [option]; the cluster
    (the objects behind the client and the outcome of the API calls) is an
    explicit [World] threaded through the code.  The file has three parts:
    the embedding, the vocabulary of the statements, and the proofs. *)

From Stdlib Require Import Ascii String NArith.
From stdpp Require Import gmap strings list.

(** ** Bytes used by the string formatting *)

Definition DQUOTE : ascii := "034"%char.
Definition BACKSLASH : ascii := "092"%char.

Definition str1 (c : ascii) : string := String c EmptyString.

(** ** Package [strconv]: the [%q] verb of [fmt.Sprintf] *)

Module strconv.

Definition hexdigit (n : N) : ascii :=
  match String.get (N.to_nat n) "0123456789abcdef" with
  | Some c => c
  | None => "0"%char
  end.

(** One byte of [strconv.Quote].  Bytes below 0x80 are rendered exactly as Go
    does: the quote and the backslash are escaped, printable ASCII is kept,
    the seven named control characters get their letter and every other
    control character its two hex digits.  Bytes from 0x80 on are copied:
    that is what Go does for the UTF-8 encoding of a printable rune, the only
    multi-byte input considered here. *)
Definition quoteByte (c : ascii) : string :=
  let n := N_of_ascii c in
  if (n =? 34)%N || (n =? 92)%N then String BACKSLASH (str1 c)
  else if (32 <=? n)%N && (n <=? 126)%N then str1 c
  else if (n =? 7)%N then String BACKSLASH "a"
  else if (n =? 8)%N then String BACKSLASH "b"
  else if (n =? 12)%N then String BACKSLASH "f"
  else if (n =? 10)%N then String BACKSLASH "n"
  else if (n =? 13)%N then String BACKSLASH "r"
  else if (n =? 9)%N then String BACKSLASH "t"
  else if (n =? 11)%N then String BACKSLASH "v"
  else if (n <? 128)%N then
    String BACKSLASH (String "x" (String (hexdigit (n / 16)) (str1 (hexdigit (n mod 16)))))
  else str1 c.

Fixpoint quoteBytes (s : string) : string :=
  match s with
  | EmptyString => EmptyString
  | String c s' => quoteByte c +:+ quoteBytes s'
  end.

Definition Quote (s : string) : string :=
  String DQUOTE (quoteBytes s +:+ str1 DQUOTE).

End strconv.

(** ** Go errors

    [errors.New] builds an [errorString]; the API client fails with a
    [StatusError] that carries the reason of the failure. *)

Inductive StatusReason :=
  | StatusReasonNotFound
  | StatusReasonTimeout
  | StatusReasonInternalError
  | StatusReasonUnknown.

Inductive error :=
  | errorString (s : string)
  | StatusError (reason : StatusReason) (message : string).

#[global] Instance StatusReason_eq_dec : EqDecision StatusReason.
Proof. solve_decision. Defined.
#[global] Instance error_eq_dec : EqDecision error.
Proof. solve_decision. Defined.

Module errors.
Definition New (text : string) : error := errorString text.
End errors.

(** The [Error()] method. *)
Definition Error (e : error) : string :=
  match e with
  | errorString s => s
  | StatusError _ m => m
  end.

(** ** Package [metav1]: a condition of a resource's status *)

Module metav1.

Inductive ConditionStatus := ConditionTrue | ConditionFalse | ConditionUnknown.

Record Condition := {
  Type_ : string;
  Status : ConditionStatus;
  Reason : string;
  Message : string
}.

End metav1.

(** ** Package [platformtypes]: the failure vocabulary *)

Module platformtypes.

(** Modelled from the spec: the constants of [api/v1alpha1] are not part of
    the sources at hand; the spec names the two failure reasons
    [SourceFailed] and [ApplyFailed]. *)
Definition ReasonSourceFailed : string := "SourceFailed".

(** Modelled from the spec: the second failure reason it names. *)
Definition ReasonApplyFailed : string := "ApplyFailed".

End platformtypes.

(** ** Package [platformv1alpha1]: the members *)

Module platformv1alpha1.

Record PlatformOperatorStatus := {
  Conditions : list metav1.Condition
}.

Record PlatformOperator := {
  Name : string;
  Status : PlatformOperatorStatus
}.

Record PlatformOperatorList := {
  Items : list PlatformOperator
}.

Definition GetName (po : PlatformOperator) : string := Name po.

(** [DeepCopy] allocates a copy with the same contents. *)
Definition DeepCopy (po : PlatformOperator) : PlatformOperator := po.

End platformv1alpha1.

(** ** Package [utilerror]: aggregates of errors

    [k8s.io/apimachinery/pkg/util/errors].  [NewAggregate] returns [nil] for an
    empty list.  [Error] of an aggregate of one error is that error's message;
    of several errors it visits them in order, skips a message already seen,
    separates the others with a comma and a space, and wraps the result in
    brackets unless only one distinct message was seen. *)

Module utilerror.

Definition Aggregate := list error.

Definition NewAggregate (errlist : list error) : option Aggregate :=
  match errlist with
  | [] => None
  | _ => Some errlist
  end.

(** The body of the visitor: [seenerrs] and [result] are the two variables
    the closure updates. *)
Definition visit1 (acc : gset string * string) (err : error) : gset string * string :=
  let '(seenerrs, result) := acc in
  let msg := Error err in
  if bool_decide (msg ∈ seenerrs) then (seenerrs, result)
  else
    let seenerrs := seenerrs ∪ {[ msg ]} in
    let result := if bool_decide (1 < size seenerrs) then result +:+ ", " else result in
    (seenerrs, result +:+ msg).

Definition visit (agg : Aggregate) : gset string * string :=
  foldl visit1 (∅, EmptyString) agg.

Definition AggError (agg : Aggregate) : string :=
  match agg with
  | [] => EmptyString
  | [e] => Error e
  | _ =>
    let '(seenerrs, result) := visit agg in
    if bool_decide (size seenerrs = 1) then result
    else "[" +:+ result +:+ "]"
  end.

End utilerror.

(** ** The inspector *)

Module controllers.

Import platformv1alpha1.

Record POStatusErrors := {
  FailingPOs : list PlatformOperator;
  FailingErrors : list error
}.

Definition isFailureReason (reason : string) : bool :=
  bool_decide (reason = platformtypes.ReasonSourceFailed)
  || bool_decide (reason = platformtypes.ReasonApplyFailed).

(** [fmt.Sprintf("%s is failing: %q", name, reason)] *)
Definition failingMessage (name reason : string) : string :=
  name +:+ " is failing: " +:+ strconv.Quote reason.

(** The body of the inner loop, for one condition of [po]. *)
Definition inspectCondition (po : PlatformOperator)
    (POstatuses : POStatusErrors) (condition : metav1.Condition) : POStatusErrors :=
  if isFailureReason (metav1.Reason condition) then
    {| FailingPOs := FailingPOs POstatuses ++ [po];
       FailingErrors := FailingErrors POstatuses ++
         [errors.New (failingMessage (GetName po) (metav1.Reason condition))] |}
  else POstatuses.

(** The body of the outer loop, for one member. *)
Definition inspectPO (POstatuses : POStatusErrors) (po : PlatformOperator) : POStatusErrors :=
  let po := DeepCopy po in
  let status := Status po in
  foldl (inspectCondition po) POstatuses (Conditions status).

(** The two loops, from the empty [POStatusErrors]. *)
Definition collectPlatformOperators (POList : PlatformOperatorList) : POStatusErrors :=
  foldl inspectPO {| FailingPOs := []; FailingErrors := [] |} (Items POList).

Definition inspectPlatformOperators (POList : PlatformOperatorList) : option POStatusErrors :=
  let POstatuses := collectPlatformOperators POList in
  if bool_decide (0 < length (FailingPOs POstatuses)) || bool_decide (0 < length (FailingErrors POstatuses))
  then Some POstatuses
  else None.

End controllers.

(** ** Package [openshiftconfigv1]: the composite target *)

Module openshiftconfigv1.

Inductive ConditionStatus := ConditionTrue | ConditionFalse | ConditionUnknown.

Record ProgressingCondition := {
  ProgressingStatus : ConditionStatus;
  ProgressingReason : string
}.

Record AvailableCondition := {
  AvailableStatus : ConditionStatus;
  AvailableReason : string;
  AvailableMessage : string
}.

(** Modelled from the spec: the status that the builder of
    [internal/aggregated-co] assembles is not part of the sources at hand.
    The spec describes it as exactly three named condition slots,
    Progressing (status, reason), Degraded (status) and Available (status,
    reason, message); a slot that no setter has written is [None]. *)
Record ClusterOperatorStatus := {
  Progressing : option ProgressingCondition;
  Degraded : option ConditionStatus;
  Available : option AvailableCondition
}.

Record ClusterOperator := {
  Name : string;
  Status : ClusterOperatorStatus
}.

#[global] Instance ConditionStatus_eq_dec : EqDecision ConditionStatus.
Proof. solve_decision. Defined.
#[global] Instance ProgressingCondition_eq_dec : EqDecision ProgressingCondition.
Proof. solve_decision. Defined.
#[global] Instance AvailableCondition_eq_dec : EqDecision AvailableCondition.
Proof. solve_decision. Defined.
#[global] Instance ClusterOperatorStatus_eq_dec : EqDecision ClusterOperatorStatus.
Proof. solve_decision. Defined.

End openshiftconfigv1.

(** ** Package [aggregatedco]: the status builder *)

Module aggregatedco.

Import openshiftconfigv1.

(** Modelled from the spec: the builder of [internal/aggregated-co] is not
    part of the sources at hand.  The spec gives it three setters and a
    snapshot reader, with no branching: a setter records what it is told and
    the last write to a slot wins.  The spec names the inputs of the
    Available setter (status, reason, message) and fixes their position at
    the call sites through its terminals and examples: in the call with the
    text [No POs Found] that text is the reason, and at the failing terminal
    the aggregate of the failure messages is the message; hence the second
    argument of the setter is the message and the third the reason. *)
Record Builder := {
  status : ClusterOperatorStatus
}.

(** Modelled from the spec: a builder no setter has written. *)
Definition NewBuilder : Builder :=
  {| status := {| Progressing := None; Degraded := None; Available := None |} |}.

(** Modelled from the spec: the setter of the Progressing slot. *)
Definition WithProgressing (s : ConditionStatus) (reason : string) (b : Builder) : Builder :=
  {| status :=
       {| Progressing := Some {| ProgressingStatus := s; ProgressingReason := reason |};
          Degraded := Degraded (status b);
          Available := Available (status b) |} |}.

(** Modelled from the spec: the setter of the Degraded slot. *)
Definition WithDegraded (s : ConditionStatus) (b : Builder) : Builder :=
  {| status :=
       {| Progressing := Progressing (status b);
          Degraded := Some s;
          Available := Available (status b) |} |}.

(** Modelled from the spec: the setter of the Available slot. *)
Definition WithAvailable (s : ConditionStatus) (message reason : string) (b : Builder) : Builder :=
  {| status :=
       {| Progressing := Progressing (status b);
          Degraded := Degraded (status b);
          Available := Some {| AvailableStatus := s; AvailableReason := reason;
                               AvailableMessage := message |} |} |}.

(** Modelled from the spec: the snapshot reader. *)
Definition GetStatus (b : Builder) : ClusterOperatorStatus := status b.

End aggregatedco.

(** ** The cluster and the calls of one invocation *)

(** [ctrl.Request]: the composite target is cluster-scoped, so the key is its
    name. *)
Record Request := {
  NamespacedName : string
}.

(** [ctrl.Result] *)
Record Result := {
  Requeue : bool;
  RequeueAfter : Z
}.

Definition Result0 : Result := {| Requeue := false; RequeueAfter := 0 |}.

(** What the API server holds, and what it will answer to the calls still to
    come.  The cluster operators are kept by name, each with its status, the
    only part of the object this code reads or writes.  Each call to the
    server consumes the head of [faults]; an error there makes the call fail,
    [None] or an exhausted list lets it through. *)
Record World := {
  clusteroperators : gmap string openshiftconfigv1.ClusterOperatorStatus;
  platformoperators : list platformv1alpha1.PlatformOperator;
  faults : list (option error)
}.

Definition answer (w : World) : option error :=
  match faults w with
  | f :: _ => f
  | [] => None
  end.

Definition consume (w : World) : World :=
  {| clusteroperators := clusteroperators w;
     platformoperators := platformoperators w;
     faults := tail (faults w) |}.

(** The calls an invocation makes on its collaborators, in order. *)
Inductive Call :=
  | CallLogInfo (msg : string) (req : string)
  | CallLogError (err : error) (msg : string)
  | CallGet (key : string)
  | CallList
  | CallWithProgressing (s : openshiftconfigv1.ConditionStatus) (reason : string)
  | CallWithDegraded (s : openshiftconfigv1.ConditionStatus)
  | CallWithAvailable (s : openshiftconfigv1.ConditionStatus) (message reason : string)
  | CallUpdateStatus (existing : openshiftconfigv1.ClusterOperator)
      (newStatus : openshiftconfigv1.ClusterOperatorStatus)
  | CallPatch (name : string) (newStatus : openshiftconfigv1.ClusterOperatorStatus).

(** The functions registered with [defer] in [Reconcile]. *)
Inductive Deferred :=
  | DeferLogFinished (req : Request)
  | DeferUpdateStatus (aggregatedCO : openshiftconfigv1.ClusterOperator).

(** The state of one invocation of [Reconcile]: the cluster, the calls made so
    far, the builder behind the pointer [coBuilder] and the stack of deferred
    functions (last registered first). *)
Record Exec := {
  world : World;
  journal : list Call;
  coBuilder : aggregatedco.Builder;
  deferred : list Deferred
}.

(** How a statement ends: it falls through to the next one, the function
    returns, or it panics. *)
Inductive step (A : Type) :=
  | Next (a : A)
  | Return (r : Result) (err : option error)
  | Panic (msg : string).
Arguments Next {A} a.
Arguments Return {A} r err.
Arguments Panic {A} msg.

Definition M (A : Type) : Type := Exec -> step A * Exec.

Definition ret {A} (a : A) : M A := fun ex => (Next a, ex).

Definition bind {A B} (m : M A) (k : A -> M B) : M B :=
  fun ex =>
    match m ex with
    | (Next a, ex') => k a ex'
    | (Return r err, ex') => (Return r err, ex')
    | (Panic msg, ex') => (Panic msg, ex')
    end.

Definition return_ {A} (r : Result) (err : option error) : M A :=
  fun ex => (Return r err, ex).

Definition panic {A} (msg : string) : M A :=
  fun ex => (Panic msg, ex).

Declare Scope go_scope.
Delimit Scope go_scope with go.
Notation "x <- m ;; k" := (bind m (fun x => k))
  (at level 100, m at next level, right associativity) : go_scope.
Notation "m ;; k" := (bind m (fun _ => k))
  (at level 100, right associativity) : go_scope.

Definition record (c : Call) : M unit :=
  fun ex => (Next tt, {| world := world ex; journal := journal ex ++ [c];
                         coBuilder := coBuilder ex; deferred := deferred ex |}).

Definition getWorld : M World := fun ex => (Next (world ex), ex).

Definition setWorld (w : World) : M unit :=
  fun ex => (Next tt, {| world := w; journal := journal ex;
                         coBuilder := coBuilder ex; deferred := deferred ex |}).

Definition getBuilder : M aggregatedco.Builder := fun ex => (Next (coBuilder ex), ex).

Definition setBuilder (b : aggregatedco.Builder) : M unit :=
  fun ex => (Next tt, {| world := world ex; journal := journal ex;
                         coBuilder := b; deferred := deferred ex |}).

Definition defer (d : Deferred) : M unit :=
  fun ex => (Next tt, {| world := world ex; journal := journal ex;
                         coBuilder := coBuilder ex; deferred := d :: deferred ex |}).

Definition popDeferred : M (option Deferred) :=
  fun ex =>
    match deferred ex with
    | [] => (Next None, ex)
    | d :: ds => (Next (Some d), {| world := world ex; journal := journal ex;
                                    coBuilder := coBuilder ex; deferred := ds |})
    end.

(** ** The logger *)

Module logr.

Definition Info (msg : string) (req : Request) : M unit :=
  record (CallLogInfo msg (NamespacedName req)).

Definition Error (err : error) (msg : string) : M unit :=
  record (CallLogError err msg).

End logr.

(** ** Package [client]: reading the cluster

    The API server is outside the repository; it is modelled by what it
    answers: the object of that name or a not-found error for a Get, the
    members for a List, unless the call fails. *)

Module client.
Local Open Scope go_scope.

Definition IsNotFound (err : error) : bool :=
  match err with
  | StatusError StatusReasonNotFound _ => true
  | _ => false
  end.

Definition IgnoreNotFound (err : error) : option error :=
  if IsNotFound err then None else Some err.

Definition NewNotFound (name : string) : error :=
  StatusError StatusReasonNotFound
    ("clusteroperators.config.openshift.io " +:+ strconv.Quote name +:+ " not found").

(** What the server answers to a Get in the world [w]. *)
Definition answerGet (key : string) (w : World) : openshiftconfigv1.ClusterOperator + error :=
  match answer w with
  | Some err => inr err
  | None =>
    match clusteroperators w !! key with
    | Some st => inl {| openshiftconfigv1.Name := key; openshiftconfigv1.Status := st |}
    | None => inr (NewNotFound key)
    end
  end.

(** What the server answers to a List in the world [w]. *)
Definition answerList (w : World) : platformv1alpha1.PlatformOperatorList + error :=
  match answer w with
  | Some err => inr err
  | None => inl {| platformv1alpha1.Items := platformoperators w |}
  end.

(** [a.Get(ctx, req.NamespacedName, aggregatedCO)] *)
Definition Get (key : string) : M (openshiftconfigv1.ClusterOperator + error) :=
  record (CallGet key) ;;
  w <- getWorld ;;
  setWorld (consume w) ;;
  ret (answerGet key w).

(** [a.List(ctx, poList)] *)
Definition List : M (platformv1alpha1.PlatformOperatorList + error) :=
  record CallList ;;
  w <- getWorld ;;
  setWorld (consume w) ;;
  ret (answerList w).

End client.

(** ** Package [aggregatedco]: the status writer *)

Module Writer.
Local Open Scope go_scope.
Import openshiftconfigv1.

(** The world after the server has answered a patch of the status of [name]. *)
Definition patched (name : string) (newStatus : ClusterOperatorStatus) (w : World) : World :=
  match answer w with
  | Some _ => consume w
  | None =>
    {| clusteroperators := alter (fun _ => newStatus) name (clusteroperators w);
       platformoperators := platformoperators w;
       faults := tail (faults w) |}
  end.

(** The patch of the status sub-resource on the server: it touches the
    status of the named object only, and nothing when the call fails or the
    object does not exist. *)
Definition Patch (name : string) (newStatus : ClusterOperatorStatus) : M (option error) :=
  record (CallPatch name newStatus) ;;
  w <- getWorld ;;
  setWorld (patched name newStatus w) ;;
  ret (answer w).

(** Modelled from the spec: the writer of [internal/aggregated-co] is not
    part of the sources at hand.  The spec has it compare the status of the
    copy of the target that the caller supplies with the desired one, field
    by field; when they are identical it performs no write, otherwise it
    issues exactly one patch of the status and hands an error of that patch
    back to the caller, without a retry. *)
Definition UpdateStatus (existing : ClusterOperator) (newStatus : ClusterOperatorStatus)
    : M (option error) :=
  if bool_decide (Status existing = newStatus) then ret None
  else Patch (Name existing) newStatus.

End Writer.

(** ** The control loop *)

Module reconciler.
Local Open Scope go_scope.
Import openshiftconfigv1 controllers.

(** The setters, called through the pointer [coBuilder]. *)
Definition WithProgressing (s : ConditionStatus) (reason : string) : M unit :=
  record (CallWithProgressing s reason) ;;
  b <- getBuilder ;;
  setBuilder (aggregatedco.WithProgressing s reason b).

Definition WithDegraded (s : ConditionStatus) : M unit :=
  record (CallWithDegraded s) ;;
  b <- getBuilder ;;
  setBuilder (aggregatedco.WithDegraded s b).

Definition WithAvailable (s : ConditionStatus) (message reason : string) : M unit :=
  record (CallWithAvailable s message reason) ;;
  b <- getBuilder ;;
  setBuilder (aggregatedco.WithAvailable s message reason b).

(** [utilerror.NewAggregate(errs).Error()]: the method call on a [nil]
    aggregate panics. *)
Definition aggregateError (errs : list error) : M string :=
  match utilerror.NewAggregate errs with
  | Some agg => ret (utilerror.AggError agg)
  | None => panic "invalid memory address or nil pointer dereference"
  end.

(** The deferred closure of lines 73 to 77: it reads the builder when it
    runs, not when it is registered. *)
Definition deferredUpdateStatus (aggregatedCO : ClusterOperator) : M unit :=
  b <- getBuilder ;;
  record (CallUpdateStatus aggregatedCO (aggregatedco.GetStatus b)) ;;
  err <- Writer.UpdateStatus aggregatedCO (aggregatedco.GetStatus b) ;;
  match err with
  | Some err => logr.Error err "error updating CO status"
  | None => ret tt
  end.

Definition runDeferred (d : Deferred) : M unit :=
  match d with
  | DeferLogFinished req => logr.Info "finished reconciling request" req
  | DeferUpdateStatus aggregatedCO => deferredUpdateStatus aggregatedCO
  end.

(** The statements of [Reconcile]; every path ends in a [return]. *)
Definition body (req : Request) : M Empty_set :=
  logr.Info "reconciling request" req ;;
  defer (DeferLogFinished req) ;;
  setBuilder aggregatedco.NewBuilder ;;
  r <- client.Get (NamespacedName req) ;;
  match r with
  | inr err => return_ Result0 (client.IgnoreNotFound err)
  | inl aggregatedCO =>
    defer (DeferUpdateStatus aggregatedCO) ;;
    WithProgressing ConditionTrue EmptyString ;;
    WithDegraded ConditionFalse ;;
    WithAvailable ConditionFalse EmptyString EmptyString ;;
    r <- client.List ;;
    match r with
    | inr err =>
      logr.Error err "error listing platformoperators" ;;
      return_ Result0 (Some err)
    | inl poList =>
      if bool_decide (length (platformv1alpha1.Items poList) = 0) then
        WithAvailable ConditionTrue EmptyString "No POs Found" ;;
        return_ Result0 None
      else
        match inspectPlatformOperators poList with
        | Some statusErrorCheck =>
          WithDegraded ConditionTrue ;;
          msg <- aggregateError (FailingErrors statusErrorCheck) ;;
          WithAvailable ConditionFalse msg "PO In An Error State" ;;
          return_ Result0 None
        | None =>
          WithAvailable ConditionTrue "All POs in a successful state" "POs Are Healthy" ;;
          return_ Result0 None
        end
    end
  end.

(** How an invocation ends for its caller. *)
Inductive outcome :=
  | Returned (r : Result) (err : option error)
  | Panicked (msg : string).

Definition outcomeOf (s : step Empty_set) : outcome :=
  match s with
  | Next a => match a with end
  | Return r err => Returned r err
  | Panic msg => Panicked msg
  end.

(** The deferred functions run when the function returns or panics, last
    registered first; each leaves the stack when it runs.  [n] bounds the
    number of functions run and is the height of the stack. *)
Fixpoint runDeferreds (n : nat) (ex : Exec) : Exec :=
  match n with
  | 0 => ex
  | S n' =>
    match popDeferred ex with
    | (Next (Some d), ex') => runDeferreds n' (snd (runDeferred d ex'))
    | (_, ex') => ex'
    end
  end.

Definition enter (w : World) : Exec :=
  {| world := w; journal := []; coBuilder := aggregatedco.NewBuilder; deferred := [] |}.

(** One invocation from the world [w], up to the last deferred function. *)
Definition run (req : Request) (w : World) : outcome * Exec :=
  let '(s, ex) := body req (enter w) in
  (outcomeOf s, runDeferreds (length (deferred ex)) ex).

(** What the caller and the cluster see of it: the outcome, the world left
    behind and the calls made. *)
Definition Reconcile (req : Request) (w : World) : outcome * World * list Call :=
  let '(o, ex) := run req w in (o, world ex, journal ex).

End reconciler.

(** ** Vocabulary of the statements *)

Import platformv1alpha1 controllers reconciler.

(** The conditions of a member that carry a failure reason, in order. *)
Definition matchingConditions (po : PlatformOperator) : list metav1.Condition :=
  filter (fun c => isFailureReason (metav1.Reason c)) (Conditions (Status po)).

(** The entries a member contributes to the report: one per matching
    condition, the member itself paired with the error built for it. *)
Definition reportEntries (po : PlatformOperator) : list (PlatformOperator * error) :=
  (fun c => (po, errors.New (failingMessage (GetName po) (metav1.Reason c))))
    <$> matchingConditions po.

(** A member is failing when one of its conditions has a reason of the failure
    vocabulary. *)
Definition hasFailingCondition (po : PlatformOperator) : Prop :=
  exists c, c ∈ Conditions (Status po) /\
    (metav1.Reason c = platformtypes.ReasonSourceFailed \/
     metav1.Reason c = platformtypes.ReasonApplyFailed).

Definition isFailingPO (po : PlatformOperator) : bool :=
  bool_decide (matchingConditions po <> []).

(** The message without the quotes that [%q] puts around the reason. *)
Definition unquotedMessage (name reason : string) : string :=
  name +:+ " is failing: " +:+ reason.

(** The reason between two double quotes. *)
Definition inQuotes (reason : string) : string :=
  String DQUOTE (reason +:+ str1 DQUOTE).

(** The states of the machine of the status builder, as statuses. *)
Definition progressingTrue : option openshiftconfigv1.ProgressingCondition :=
  Some {| openshiftconfigv1.ProgressingStatus := openshiftconfigv1.ConditionTrue;
          openshiftconfigv1.ProgressingReason := EmptyString |}.

Definition availableSlot (s : openshiftconfigv1.ConditionStatus) (reason message : string)
    : option openshiftconfigv1.AvailableCondition :=
  Some {| openshiftconfigv1.AvailableStatus := s;
          openshiftconfigv1.AvailableReason := reason;
          openshiftconfigv1.AvailableMessage := message |}.

Definition initialStatus : openshiftconfigv1.ClusterOperatorStatus :=
  {| openshiftconfigv1.Progressing := progressingTrue;
     openshiftconfigv1.Degraded := Some openshiftconfigv1.ConditionFalse;
     openshiftconfigv1.Available :=
       availableSlot openshiftconfigv1.ConditionFalse EmptyString EmptyString |}.

Definition emptyFleetStatus : openshiftconfigv1.ClusterOperatorStatus :=
  {| openshiftconfigv1.Progressing := progressingTrue;
     openshiftconfigv1.Degraded := Some openshiftconfigv1.ConditionFalse;
     openshiftconfigv1.Available :=
       availableSlot openshiftconfigv1.ConditionTrue "No POs Found" EmptyString |}.

Definition failingStatus (message : string) : openshiftconfigv1.ClusterOperatorStatus :=
  {| openshiftconfigv1.Progressing := progressingTrue;
     openshiftconfigv1.Degraded := Some openshiftconfigv1.ConditionTrue;
     openshiftconfigv1.Available :=
       availableSlot openshiftconfigv1.ConditionFalse "PO In An Error State" message |}.

Definition healthyStatus : openshiftconfigv1.ClusterOperatorStatus :=
  {| openshiftconfigv1.Progressing := progressingTrue;
     openshiftconfigv1.Degraded := Some openshiftconfigv1.ConditionFalse;
     openshiftconfigv1.Available :=
       availableSlot openshiftconfigv1.ConditionTrue "POs Are Healthy"
                     "All POs in a successful state" |}.

Inductive MachineState := Initial | EmptyFleet | Failing | Healthy.

Definition inState (s : MachineState) (st : openshiftconfigv1.ClusterOperatorStatus) : Prop :=
  match s with
  | Initial => st = initialStatus
  | EmptyFleet => st = emptyFleetStatus
  | Failing => exists message, st = failingStatus message
  | Healthy => st = healthyStatus
  end.

(** Observers of the calls of an invocation. *)
Definition updateStatusCalls (j : list Call)
    : list (openshiftconfigv1.ClusterOperator * openshiftconfigv1.ClusterOperatorStatus) :=
  omap (fun c => match c with CallUpdateStatus co st => Some (co, st) | _ => None end) j.

Definition patchCalls (j : list Call) : list (string * openshiftconfigv1.ClusterOperatorStatus) :=
  omap (fun c => match c with CallPatch name st => Some (name, st) | _ => None end) j.

Definition isSetter (c : Call) : bool :=
  match c with
  | CallWithProgressing _ _ | CallWithDegraded _ | CallWithAvailable _ _ _ => true
  | _ => false
  end.

Definition setterCalls (j : list Call) : list Call := filter (fun c => isSetter c) j.

(** The three setter calls of lines 80 to 82. *)
Definition initialCalls : list Call :=
  [CallWithProgressing openshiftconfigv1.ConditionTrue EmptyString;
   CallWithDegraded openshiftconfigv1.ConditionFalse;
   CallWithAvailable openshiftconfigv1.ConditionFalse EmptyString EmptyString].

(** A summary of lines 84 to 107: from the answer to the List call, the error
    returned, the calls made up to the [return] and the status the builder
    holds there. *)
Definition verdict (l : PlatformOperatorList + error)
    : option error * list Call * openshiftconfigv1.ClusterOperatorStatus :=
  match l with
  | inr err => (Some err, [CallLogError err "error listing platformoperators"], initialStatus)
  | inl poList =>
    if bool_decide (length (Items poList) = 0) then
      (None, [CallWithAvailable openshiftconfigv1.ConditionTrue EmptyString "No POs Found"],
       emptyFleetStatus)
    else
      match inspectPlatformOperators poList with
      | Some r =>
        let msg := utilerror.AggError (FailingErrors r) in
        (None, [CallWithDegraded openshiftconfigv1.ConditionTrue;
                CallWithAvailable openshiftconfigv1.ConditionFalse msg "PO In An Error State"],
         failingStatus msg)
      | None =>
        (None, [CallWithAvailable openshiftconfigv1.ConditionTrue
                  "All POs in a successful state" "POs Are Healthy"],
         healthyStatus)
      end
  end.

(** A summary of the deferred write: the calls it makes after the call of
    [UpdateStatus] itself, and the world it leaves. *)
Definition writeCalls (co : openshiftconfigv1.ClusterOperator)
    (st : openshiftconfigv1.ClusterOperatorStatus) (w : World) : list Call :=
  if bool_decide (openshiftconfigv1.Status co = st) then []
  else CallPatch (openshiftconfigv1.Name co) st ::
       match answer w with
       | Some err => [CallLogError err "error updating CO status"]
       | None => []
       end.

Definition writeWorld (co : openshiftconfigv1.ClusterOperator)
    (st : openshiftconfigv1.ClusterOperatorStatus) (w : World) : World :=
  if bool_decide (openshiftconfigv1.Status co = st) then w
  else Writer.patched (openshiftconfigv1.Name co) st w.

(** The message of the Available slot. *)
Definition availableMessage (st : openshiftconfigv1.ClusterOperatorStatus) : string :=
  match openshiftconfigv1.Available st with
  | Some a => openshiftconfigv1.AvailableMessage a
  | None => EmptyString
  end.

(** The setter calls that take the builder from the initial state to the state
    [s] with the status [st]. *)
Definition transitionCalls (s : MachineState) (st : openshiftconfigv1.ClusterOperatorStatus)
    : list Call :=
  match s with
  | Initial => []
  | EmptyFleet =>
    [CallWithAvailable openshiftconfigv1.ConditionTrue EmptyString "No POs Found"]
  | Failing =>
    [CallWithDegraded openshiftconfigv1.ConditionTrue;
     CallWithAvailable openshiftconfigv1.ConditionFalse (availableMessage st)
                       "PO In An Error State"]
  | Healthy =>
    [CallWithAvailable openshiftconfigv1.ConditionTrue
       "All POs in a successful state" "POs Are Healthy"]
  end.

(** The combined message in closed form: the messages in order, each kept at
    its first occurrence only, joined by a comma and a space, and put between
    brackets when more than one is left. *)
Fixpoint firstOccurrences (seen : gset string) (msgs : list string) : list string :=
  match msgs with
  | [] => []
  | m :: ms =>
    if bool_decide (m ∈ seen) then firstOccurrences seen ms
    else m :: firstOccurrences (seen ∪ {[ m ]}) ms
  end.

Fixpoint joinWith (sep : string) (msgs : list string) : string :=
  match msgs with
  | [] => EmptyString
  | m :: ms =>
    match ms with
    | [] => m
    | _ => m +:+ sep +:+ joinWith sep ms
    end
  end.

Fixpoint prefixWith (sep : string) (msgs : list string) : string :=
  match msgs with
  | [] => EmptyString
  | m :: ms => sep +:+ m +:+ prefixWith sep ms
  end.

Definition combinedMessage (msgs : list string) : string :=
  match msgs with
  | [] => EmptyString
  | [m] => m
  | _ =>
    match firstOccurrences ∅ msgs with
    | [m] => m
    | ms => "[" +:+ joinWith ", " ms +:+ "]"
    end
  end.

(** ** Sample clusters *)

Definition mkCondition (reason : string) : metav1.Condition :=
  {| metav1.Type_ := "Installed"; metav1.Status := metav1.ConditionFalse;
     metav1.Reason := reason; metav1.Message := EmptyString |}.

Definition mkPO (name : string) (reasons : list string) : PlatformOperator :=
  {| Name := name; Status := {| Conditions := mkCondition <$> reasons |} |}.

Definition aggregateCOName : string := "platform-operators-aggregated".

Definition freshCO : openshiftconfigv1.ClusterOperator :=
  {| openshiftconfigv1.Name := aggregateCOName;
     openshiftconfigv1.Status := aggregatedco.GetStatus aggregatedco.NewBuilder |}.

Definition sampleWorld (pos : list PlatformOperator) (fs : list (option error)) : World :=
  {| clusteroperators := {[ aggregateCOName := openshiftconfigv1.Status freshCO ]};
     platformoperators := pos;
     faults := fs |}.

Definition emptyCluster : World :=
  {| clusteroperators := ∅; platformoperators := []; faults := [] |}.

Definition sampleRequest : Request := {| NamespacedName := aggregateCOName |}.

(** ** Further vocabulary: the calls by kind, names and reasons, substrings *)

Definition isWithProgressing (c : Call) : bool :=
  match c with CallWithProgressing _ _ => true | _ => false end.

Definition isGet (c : Call) : bool :=
  match c with CallGet _ => true | _ => false end.

Definition isList (c : Call) : bool :=
  match c with CallList => true | _ => false end.

Definition isUpdateStatus (c : Call) : bool :=
  match c with CallUpdateStatus _ _ => true | _ => false end.

(** The errors the logger was handed, each with its text. *)
Definition loggedErrors (j : list Call) : list (error * string) :=
  omap (fun c => match c with CallLogError err msg => Some (err, msg) | _ => None end) j.

(** What the inspector reads of a member: its name and the reasons of its
    conditions. *)
Definition reasonsOf (po : PlatformOperator) : list string :=
  metav1.Reason <$> Conditions (Status po).

Definition sameNameAndReasons (po1 po2 : PlatformOperator) : Prop :=
  GetName po1 = GetName po2 /\ reasonsOf po1 = reasonsOf po2.

(** [m] occurs in [s] as a run of consecutive bytes. *)
Definition occursIn (m s : string) : Prop :=
  exists pre post, s = pre +:+ m +:+ post.

(** ** The inspector *)

Lemma isFailureReason_spec reason :
  isFailureReason reason = true <->
  reason = platformtypes.ReasonSourceFailed \/ reason = platformtypes.ReasonApplyFailed.
Proof.
  unfold isFailureReason. rewrite orb_true_iff, !bool_decide_eq_true. reflexivity.
Qed.

Lemma Quote_failure_reason reason :
  isFailureReason reason = true -> strconv.Quote reason = inQuotes reason.
Proof.
  intros [-> | ->]%isFailureReason_spec; reflexivity.
Qed.

Lemma inspectCondition_fold po conds acc :
  foldl (inspectCondition po) acc conds =
  {| FailingPOs := FailingPOs acc ++
       ((fun _ => po) <$> filter (fun c => isFailureReason (metav1.Reason c)) conds);
     FailingErrors := FailingErrors acc ++
       ((fun c => errors.New (failingMessage (GetName po) (metav1.Reason c)))
          <$> filter (fun c => isFailureReason (metav1.Reason c)) conds) |}.
Proof.
  revert acc. induction conds as [|c conds IH]; intros acc.
  - destruct acc. cbn. by rewrite !app_nil_r.
  - cbn [foldl]. rewrite IH. unfold inspectCondition.
    rewrite filter_cons. destruct (isFailureReason (metav1.Reason c)) eqn:Hc; cbn.
    + by rewrite <- !app_assoc.
    + done.
Qed.

Lemma inspectPO_entries acc po :
  inspectPO acc po =
  {| FailingPOs := FailingPOs acc ++ (reportEntries po).*1;
     FailingErrors := FailingErrors acc ++ (reportEntries po).*2 |}.
Proof.
  unfold inspectPO, DeepCopy. rewrite inspectCondition_fold.
  unfold reportEntries, matchingConditions. by rewrite <- !list_fmap_compose.
Qed.

Lemma inspectPO_fold items acc :
  foldl inspectPO acc items =
  {| FailingPOs := FailingPOs acc ++ (items ≫= reportEntries).*1;
     FailingErrors := FailingErrors acc ++ (items ≫= reportEntries).*2 |}.
Proof.
  revert acc. induction items as [|po items IH]; intros acc.
  - destruct acc. cbn. by rewrite !app_nil_r.
  - cbn [foldl]. rewrite IH, inspectPO_entries. cbn [FailingPOs FailingErrors].
    rewrite bind_cons, !fmap_app, <- !app_assoc. done.
Qed.

Lemma collect_entries POList :
  collectPlatformOperators POList =
  {| FailingPOs := (Items POList ≫= reportEntries).*1;
     FailingErrors := (Items POList ≫= reportEntries).*2 |}.
Proof. unfold collectPlatformOperators. by rewrite inspectPO_fold. Qed.

Lemma inspect_entries POList :
  inspectPlatformOperators POList =
  match Items POList ≫= reportEntries with
  | [] => None
  | es => Some {| FailingPOs := es.*1; FailingErrors := es.*2 |}
  end.
Proof.
  unfold inspectPlatformOperators. rewrite collect_entries.
  destruct (Items POList ≫= reportEntries) as [|e es]; [done|].
  cbn [FailingPOs FailingErrors fmap list_fmap length].
  rewrite bool_decide_eq_true_2 by lia. done.
Qed.

Lemma matching_condition_iff po c :
  c ∈ matchingConditions po <->
  c ∈ Conditions (Status po) /\
  (metav1.Reason c = platformtypes.ReasonSourceFailed \/
   metav1.Reason c = platformtypes.ReasonApplyFailed).
Proof.
  unfold matchingConditions. rewrite list_elem_of_filter, Is_true_true, isFailureReason_spec.
  tauto.
Qed.

Lemma reportEntries_nonempty po :
  reportEntries po <> [] <-> hasFailingCondition po.
Proof.
  unfold reportEntries, hasFailingCondition. split.
  - intros H. destruct (matchingConditions po) as [|c cs] eqn:Hm; [done|].
    exists c. apply matching_condition_iff. rewrite Hm. left.
  - intros (c & Hc) Hnil. apply matching_condition_iff in Hc.
    apply fmap_nil_inv in Hnil. rewrite Hnil in Hc. by apply not_elem_of_nil in Hc.
Qed.

Lemma entries_nonempty items :
  items ≫= reportEntries <> [] <-> exists po, po ∈ items /\ hasFailingCondition po.
Proof.
  split.
  - intros H. destruct (items ≫= reportEntries) as [|e es] eqn:He; [done|].
    assert (e ∈ items ≫= reportEntries) as Hin by (rewrite He; left).
    apply list_elem_of_bind in Hin as (po & Hpo & Hitems).
    exists po. split; [done|]. apply reportEntries_nonempty.
    intros Hnil. rewrite Hnil in Hpo. by apply not_elem_of_nil in Hpo.
  - intros (po & Hin & Hf%reportEntries_nonempty) Hnil.
    destruct (reportEntries po) as [|e es] eqn:He; [done|].
    assert (e ∈ items ≫= reportEntries) as Hbad.
    { apply list_elem_of_bind. exists po. rewrite He. split; [left|done]. }
    rewrite Hnil in Hbad. by apply not_elem_of_nil in Hbad.
Qed.

Lemma inspect_Some POList r :
  inspectPlatformOperators POList = Some r ->
  Items POList ≫= reportEntries <> [] /\
  FailingPOs r = (Items POList ≫= reportEntries).*1 /\
  FailingErrors r = (Items POList ≫= reportEntries).*2.
Proof.
  rewrite inspect_entries.
  destruct (Items POList ≫= reportEntries) as [|e es]; [done|].
  intros [= <-]. done.
Qed.

Lemma inspect_Some_errors_nonempty POList r :
  inspectPlatformOperators POList = Some r -> FailingErrors r <> [].
Proof.
  intros (Hne & _ & ->)%inspect_Some Hnil. by apply fmap_nil_inv in Hnil.
Qed.

Lemma inspect_is_Some POList :
  is_Some (inspectPlatformOperators POList) <->
  exists po, po ∈ Items POList /\ hasFailingCondition po.
Proof.
  rewrite <- entries_nonempty, inspect_entries.
  destruct (Items POList ≫= reportEntries) as [|e es].
  - split; [by intros [? ?]|done].
  - split; [done|eauto].
Qed.

(** The messages of a member, with the reason between quotes. *)
Lemma reportEntries_messages po :
  Error <$> (reportEntries po).*2 =
  (fun c => GetName po +:+ " is failing: " +:+ inQuotes (metav1.Reason c))
    <$> matchingConditions po.
Proof.
  unfold reportEntries. rewrite <- !list_fmap_compose.
  apply list_fmap_ext. intros i c Hc. cbn.
  assert (c ∈ matchingConditions po) as Hin by (apply list_elem_of_lookup; eauto).
  clear Hc. rename Hin into Hc.
  unfold failingMessage. rewrite Quote_failure_reason; [done|].
  apply matching_condition_iff in Hc as [_ Hc]. by apply isFailureReason_spec.
Qed.

Lemma reportEntries_members po :
  (reportEntries po).*1 = replicate (length (matchingConditions po)) po.
Proof.
  unfold reportEntries. rewrite <- list_fmap_compose.
  induction (matchingConditions po) as [|c cs IH]; [done|]. cbn. by rewrite IH.
Qed.

Lemma fmap_bind_list {A B C} (f : B -> C) (g : A -> list B) (l : list A) :
  f <$> (l ≫= g) = l ≫= (fun x => f <$> g x).
Proof.
  induction l as [|x l IH]; [done|]. by rewrite !bind_cons, fmap_app, IH.
Qed.

Lemma bind_ext_list {A B} (f g : A -> list B) (l : list A) :
  (forall x, f x = g x) -> l ≫= f = l ≫= g.
Proof.
  intros H. induction l as [|x l IH]; [done|]. by rewrite !bind_cons, H, IH.
Qed.

(** Positions in the output of a traversal follow the positions in its
    input. *)
Lemma bind_lookup {A B} (f : A -> list B) (l : list A) (i : nat) (x : B) :
  (l ≫= f) !! i = Some x -> exists a u, l !! a = Some u /\ x ∈ f u.
Proof.
  intros H. assert (x ∈ l ≫= f) as Hin by (apply list_elem_of_lookup; eauto).
  apply list_elem_of_bind in Hin as (u & Hx & Hu).
  apply list_elem_of_lookup in Hu as [a Ha]. eauto.
Qed.

Lemma bind_lookup_monotone {A B} (f : A -> list B) (l : list A) (i j : nat) (x y : B) :
  i <= j ->
  (l ≫= f) !! i = Some x ->
  (l ≫= f) !! j = Some y ->
  exists a b u v, a <= b /\ l !! a = Some u /\ l !! b = Some v /\ x ∈ f u /\ y ∈ f v.
Proof.
  revert i j. induction l as [|u l IH]; intros i j Hij Hi Hj; [done|].
  rewrite bind_cons in Hi, Hj.
  destruct (decide (i < length (f u))) as [Hlt|Hge].
  - rewrite lookup_app_l in Hi by done.
    assert (x ∈ f u) as Hx by (apply list_elem_of_lookup; eauto).
    destruct (decide (j < length (f u))) as [Hlt'|Hge'].
    + rewrite lookup_app_l in Hj by done.
      exists 0, 0, u, u. repeat split; try done.
      apply list_elem_of_lookup; eauto.
    + rewrite lookup_app_r in Hj by lia.
      apply bind_lookup in Hj as (b & v & Hb & Hy).
      exists 0, (S b), u, v. repeat split; try done. lia.
  - rewrite lookup_app_r in Hi by lia. rewrite lookup_app_r in Hj by lia.
    destruct (IH (i - length (f u)) (j - length (f u))) as (a & b & u' & v' & ? & ? & ? & ? & ?);
      [lia|done|done|].
    exists (S a), (S b), u', v'. repeat split; try done. lia.
Qed.

Lemma reportEntries_fst po e : e ∈ reportEntries po -> e.1 = po.
Proof.
  unfold reportEntries. intros (c & -> & _)%list_elem_of_fmap. done.
Qed.

Lemma length_bind_list {A B} (f : A -> list B) (l : list A) :
  length (l ≫= f) = sum_list_with (fun x => length (f x)) l.
Proof.
  induction l as [|x l IH]; [done|]. rewrite bind_cons, length_app, IH. done.
Qed.

Lemma length_reportEntries po :
  length (reportEntries po) = length (matchingConditions po).
Proof. unfold reportEntries. by rewrite length_fmap. Qed.

Lemma length_entries (items : list PlatformOperator) :
  length (items ≫= reportEntries) =
  sum_list_with (fun po => length (matchingConditions po)) items.
Proof.
  rewrite length_bind_list.
  induction items as [|po l IH]; [done|].
  cbn. by rewrite length_reportEntries, IH.
Qed.

(** C1: the inspector returns a report (a non-nil pointer) exactly when some
    member has a condition whose reason is SourceFailed or ApplyFailed; an
    empty member list, a member without conditions and a list in which no
    condition has such a reason all give nil.  The inspector is a total
    function of the list: no input makes it fail. *)
Theorem inspect_nonnil_iff_failing_member (POList : PlatformOperatorList) :
  (inspectPlatformOperators POList <> None <->
   exists po c, po ∈ Items POList /\ c ∈ Conditions (Status po) /\
     (metav1.Reason c = platformtypes.ReasonSourceFailed \/
      metav1.Reason c = platformtypes.ReasonApplyFailed))
  /\ inspectPlatformOperators {| Items := [] |} = None
  /\ (forall name,
        inspectPlatformOperators
          {| Items := [ {| Name := name; Status := {| Conditions := [] |} |} ] |} = None)
  /\ ((forall po c, po ∈ Items POList -> c ∈ Conditions (Status po) ->
         metav1.Reason c <> platformtypes.ReasonSourceFailed /\
         metav1.Reason c <> platformtypes.ReasonApplyFailed) ->
      inspectPlatformOperators POList = None).
Proof.
  assert (inspectPlatformOperators POList <> None <->
          exists po c, po ∈ Items POList /\ c ∈ Conditions (Status po) /\
            (metav1.Reason c = platformtypes.ReasonSourceFailed \/
             metav1.Reason c = platformtypes.ReasonApplyFailed)) as Hiff.
  { split.
    - intros Hne. destruct (inspectPlatformOperators POList) as [r|] eqn:Hr; [|done].
      assert (is_Some (inspectPlatformOperators POList)) as Hs by (rewrite Hr; eauto).
      apply inspect_is_Some in Hs as (po & Hpo & c & Hc & Hreason). eauto 6.
    - intros (po & c & Hpo & Hc & Hreason) Hnone.
      assert (is_Some (inspectPlatformOperators POList)) as Hs.
      { apply inspect_is_Some. exists po. split; [done|]. exists c. done. }
      rewrite Hnone in Hs. by destruct Hs. }
  split; [exact Hiff|]. split; [reflexivity|]. split; [reflexivity|].
  intros Hnone. destruct (inspectPlatformOperators POList) as [r|] eqn:Hr; [|done].
  exfalso. destruct Hiff as [Hex _].
  destruct Hex as (po & c & Hpo & Hc & Hreason); [done|].
  destruct (Hnone po c Hpo Hc) as [H1 H2]. by destruct Hreason.
Qed.

(** C4, as stated, fails: for the member B with one condition of reason
    SourceFailed the message is not the name, the text and the bare reason;
    the reason comes between double quotes. *)
Lemma inspect_message_unquoted_counterexample :
  let POList := {| Items := [mkPO "A" []; mkPO "B" ["SourceFailed"]] |} in
  exists r,
    inspectPlatformOperators POList = Some r /\
    Error <$> FailingErrors r = ["B is failing: " +:+ inQuotes "SourceFailed"] /\
    Error <$> FailingErrors r <>
      (Items POList ≫= fun po =>
         (fun c => unquotedMessage (GetName po) (metav1.Reason c)) <$> matchingConditions po).
Proof.
  eexists. split; [reflexivity|]. split; [reflexivity|]. vm_compute. discriminate.
Qed.

(** C4, amended: the inspector builds one message per condition whose reason
    is in the failure vocabulary, in the order of the members and of their
    conditions, each made of the member name, the text [ is failing: ] and
    the reason between double quotes (the rendering of the verb q); a member
    with two such conditions yields two messages. *)
Theorem inspect_messages_quoted (POList : PlatformOperatorList) (r : POStatusErrors) :
  inspectPlatformOperators POList = Some r ->
  Error <$> FailingErrors r =
    (Items POList ≫= fun po =>
       (fun c => GetName po +:+ " is failing: " +:+ inQuotes (metav1.Reason c))
         <$> matchingConditions po)
  /\ length (FailingErrors r) =
     sum_list_with (fun po => length (matchingConditions po)) (Items POList).
Proof.
  intros (_ & _ & ->)%inspect_Some. split.
  - rewrite !fmap_bind_list. apply bind_ext_list. intros po.
    apply reportEntries_messages.
  - by rewrite length_fmap, length_entries.
Qed.

Lemma inspect_messages_quoted_witness :
  let POList := {| Items := [mkPO "A" []; mkPO "B" ["SourceFailed"; "Installed"; "ApplyFailed"]] |} in
  exists r,
    inspectPlatformOperators POList = Some r /\
    Error <$> FailingErrors r =
      ["B is failing: " +:+ inQuotes "SourceFailed";
       "B is failing: " +:+ inQuotes "ApplyFailed"] /\
    length (FailingErrors r) = 2.
Proof.
  eexists. split; [reflexivity|].
  destruct (inspect_messages_quoted
              {| Items := [mkPO "A" []; mkPO "B" ["SourceFailed"; "Installed"; "ApplyFailed"]] |}
              _ eq_refl) as [H1 H2].
  split; [exact H1 | exact H2].
Defined.

(** C9, as stated, fails: a member with two matching conditions has two
    entries in the report, not one. *)
Lemma report_one_entry_per_member_counterexample :
  let POList := {| Items := [mkPO "A" ["SourceFailed"; "ApplyFailed"]] |} in
  exists r,
    inspectPlatformOperators POList = Some r /\
    FailingPOs r = [mkPO "A" ["SourceFailed"; "ApplyFailed"];
                    mkPO "A" ["SourceFailed"; "ApplyFailed"]] /\
    filter (fun po => isFailingPO po) (Items POList) = [mkPO "A" ["SourceFailed"; "ApplyFailed"]] /\
    FailingPOs r <> filter (fun po => isFailingPO po) (Items POList) /\
    length (FailingErrors r) <> length (filter (fun po => isFailingPO po) (Items POList)).
Proof.
  eexists. split; [reflexivity|]. split; [reflexivity|]. split; [reflexivity|].
  split; vm_compute; discriminate.
Qed.

(** C9, amended: a report is a parallel pair, the members and the errors being
    the two projections of one list of entries, with exactly one entry per
    condition that matches a failure reason: a member contributes as many
    consecutive entries as it has matching conditions, the entry at each
    position pairs a member of the list with the message built from its name
    and one of its matching conditions, and each failing member has an
    entry. *)
Theorem report_one_entry_per_condition (POList : PlatformOperatorList) (r : POStatusErrors) :
  inspectPlatformOperators POList = Some r ->
  FailingPOs r = (Items POList ≫= reportEntries).*1
  /\ FailingErrors r = (Items POList ≫= reportEntries).*2
  /\ length (FailingPOs r) = length (FailingErrors r)
  /\ length (FailingPOs r) =
     sum_list_with (fun po => length (matchingConditions po)) (Items POList)
  /\ (forall i po e,
        FailingPOs r !! i = Some po -> FailingErrors r !! i = Some e ->
        po ∈ Items POList /\
        exists c, c ∈ matchingConditions po /\
          e = errors.New (GetName po +:+ " is failing: " +:+ inQuotes (metav1.Reason c)))
  /\ (forall po, po ∈ Items POList -> hasFailingCondition po -> po ∈ FailingPOs r).
Proof.
  intros (_ & HP & HE)%inspect_Some. destruct r as [ps es].
  cbn [FailingPOs FailingErrors] in *. subst ps es.
  split; [done|]. split; [done|]. split; [by rewrite !length_fmap|].
  split; [|split].
  - by rewrite length_fmap, length_entries.
  - intros i po e Hi He. rewrite list_lookup_fmap in Hi. rewrite list_lookup_fmap in He.
    destruct ((Items POList ≫= reportEntries) !! i) as [[po' e']|] eqn:Hl; [|done].
    cbn in Hi, He. injection Hi as ->. injection He as ->.
    apply bind_lookup in Hl as (a & u & Ha & Hu).
    pose proof (reportEntries_fst _ _ Hu) as Hfst. cbn in Hfst. subst u.
    split; [apply list_elem_of_lookup; eauto|].
    unfold reportEntries in Hu. apply list_elem_of_fmap in Hu as (c & Heq & Hc).
    exists c. split; [done|]. injection Heq as ->.
    unfold failingMessage. rewrite Quote_failure_reason; [done|].
    apply matching_condition_iff in Hc as [_ Hc]. by apply isFailureReason_spec.
  - intros po Hpo Hf%reportEntries_nonempty.
    destruct (reportEntries po) as [|e es] eqn:He; [done|].
    apply list_elem_of_fmap. exists e. split.
    + symmetry. apply reportEntries_fst. rewrite He. left.
    + apply list_elem_of_bind. exists po. rewrite He. split; [left|done].
Qed.

Lemma report_one_entry_per_condition_witness :
  let POList := {| Items := [mkPO "A" ["SourceFailed"; "ApplyFailed"]; mkPO "B" []] |} in
  exists r,
    inspectPlatformOperators POList = Some r /\
    length (FailingPOs r) = length (FailingErrors r) /\
    length (FailingPOs r) = 2.
Proof.
  eexists. split; [reflexivity|].
  destruct (report_one_entry_per_condition
              {| Items := [mkPO "A" ["SourceFailed"; "ApplyFailed"]; mkPO "B" []] |}
              _ eq_refl) as (_ & _ & H3 & H4 & _).
  split; [exact H3 | exact H4].
Defined.

(** ** The control loop, path by path *)

Arguments answer : simpl never.
Arguments consume : simpl never.
Arguments client.answerGet : simpl never.
Arguments client.answerList : simpl never.
Arguments Writer.patched : simpl never.
Arguments inspectPlatformOperators : simpl never.
Arguments utilerror.AggError : simpl never.
Arguments deferredUpdateStatus : simpl never.

(** Unfolding of the statements of the monad, and normal form of a journal. *)
Ltac go_steps :=
  unfold bind, ret, return_, panic, record, defer, getWorld, setWorld, getBuilder,
    setBuilder, logr.Info, logr.Error; cbn.

Ltac journal_norm := rewrite <- ?app_assoc; cbn [app].

Lemma run_unfetched req w err :
  client.answerGet (NamespacedName req) w = inr err ->
  run req w =
  (Returned Result0 (client.IgnoreNotFound err),
   {| world := consume w;
      journal := [CallLogInfo "reconciling request" (NamespacedName req);
                  CallGet (NamespacedName req);
                  CallLogInfo "finished reconciling request" (NamespacedName req)];
      coBuilder := aggregatedco.NewBuilder;
      deferred := [] |}).
Proof.
  intros Hget. unfold run, body, client.Get, enter. go_steps.
  rewrite Hget. cbn. reflexivity.
Qed.

Lemma deferredUpdateStatus_run co ex :
  deferredUpdateStatus co ex =
  (Next tt,
   {| world := writeWorld co (aggregatedco.status (coBuilder ex)) (world ex);
      journal := journal ex ++
        CallUpdateStatus co (aggregatedco.status (coBuilder ex)) ::
        writeCalls co (aggregatedco.status (coBuilder ex)) (world ex);
      coBuilder := coBuilder ex;
      deferred := deferred ex |}).
Proof.
  unfold deferredUpdateStatus, Writer.UpdateStatus, writeWorld, writeCalls,
    aggregatedco.GetStatus. go_steps.
  case_bool_decide.
  - go_steps. journal_norm. done.
  - unfold Writer.Patch. go_steps.
    destruct (answer (world ex)); go_steps; journal_norm; done.
Qed.

Lemma run_fetched req w co :
  client.answerGet (NamespacedName req) w = inl co ->
  run req w =
  (Returned Result0 (verdict (client.answerList (consume w))).1.1,
   {| world := writeWorld co (verdict (client.answerList (consume w))).2 (consume (consume w));
      journal :=
        [CallLogInfo "reconciling request" (NamespacedName req); CallGet (NamespacedName req)]
        ++ initialCalls ++ [CallList]
        ++ (verdict (client.answerList (consume w))).1.2
        ++ [CallUpdateStatus co (verdict (client.answerList (consume w))).2]
        ++ writeCalls co (verdict (client.answerList (consume w))).2 (consume (consume w))
        ++ [CallLogInfo "finished reconciling request" (NamespacedName req)];
      coBuilder := {| aggregatedco.status := (verdict (client.answerList (consume w))).2 |};
      deferred := [] |}).
Proof.
  intros Hget. unfold run, body, client.Get, client.List, WithProgressing, WithDegraded,
    WithAvailable, enter. go_steps. rewrite Hget. cbn.
  destruct (client.answerList (consume w)) as [poList|err]; cbn.
  - case_bool_decide as Hlen; cbn.
    + rewrite deferredUpdateStatus_run. go_steps. journal_norm. reflexivity.
    + destruct (inspectPlatformOperators poList) as [r|] eqn:Hr; cbn.
      * unfold aggregateError.
        pose proof (inspect_Some_errors_nonempty _ _ Hr) as Hne.
        destruct (FailingErrors r) as [|e es] eqn:He; [done|]. go_steps.
        rewrite deferredUpdateStatus_run. go_steps. journal_norm. reflexivity.
      * rewrite deferredUpdateStatus_run. go_steps. journal_norm. reflexivity.
  - rewrite deferredUpdateStatus_run. go_steps. journal_norm. reflexivity.
Qed.

Lemma verdict_never_panics req w : exists r err, (run req w).1 = Returned r err.
Proof.
  destruct (client.answerGet (NamespacedName req) w) as [co|err] eqn:Hget.
  - rewrite (run_fetched _ _ _ Hget). cbn. eauto.
  - rewrite (run_unfetched _ _ _ Hget). cbn. eauto.
Qed.

Lemma updateStatusCalls_app j1 j2 :
  updateStatusCalls (j1 ++ j2) = updateStatusCalls j1 ++ updateStatusCalls j2.
Proof. unfold updateStatusCalls. apply omap_app. Qed.

Lemma patchCalls_app j1 j2 : patchCalls (j1 ++ j2) = patchCalls j1 ++ patchCalls j2.
Proof. unfold patchCalls. apply omap_app. Qed.

Lemma setterCalls_app j1 j2 : setterCalls (j1 ++ j2) = setterCalls j1 ++ setterCalls j2.
Proof. unfold setterCalls. apply filter_app. Qed.

Lemma setterCalls_cons c j :
  setterCalls (c :: j) = if isSetter c then c :: setterCalls j else setterCalls j.
Proof. unfold setterCalls. rewrite filter_cons. by destruct (isSetter c). Qed.

Lemma setterCalls_nil : setterCalls [] = [].
Proof. reflexivity. Qed.

Ltac setters_norm :=
  repeat first [rewrite setterCalls_cons; cbn [isSetter] | rewrite setterCalls_app].

Lemma writeCalls_no_updateStatus co st w : updateStatusCalls (writeCalls co st w) = [].
Proof. unfold writeCalls. case_bool_decide; [done|]. by destruct (answer w). Qed.

Lemma writeCalls_no_setter co st w : setterCalls (writeCalls co st w) = [].
Proof. unfold writeCalls. case_bool_decide; [done|]. by destruct (answer w). Qed.

Lemma verdict_no_updateStatus l : updateStatusCalls (verdict l).1.2 = [].
Proof.
  destruct l as [poList|err]; cbn; [|done].
  case_bool_decide; [done|]. by destruct (inspectPlatformOperators poList).
Qed.

Lemma verdict_no_patch l : patchCalls (verdict l).1.2 = [].
Proof.
  destruct l as [poList|err]; cbn; [|done].
  case_bool_decide; [done|]. by destruct (inspectPlatformOperators poList).
Qed.

(** The calls of [UpdateStatus] in an invocation that fetched its target. *)
Lemma run_fetched_updateStatusCalls req w co :
  client.answerGet (NamespacedName req) w = inl co ->
  updateStatusCalls (journal (run req w).2) =
  [(co, aggregatedco.GetStatus (coBuilder (run req w).2))].
Proof.
  intros Hget. rewrite (run_fetched _ _ _ Hget). cbn [snd journal coBuilder].
  rewrite !updateStatusCalls_app, verdict_no_updateStatus, writeCalls_no_updateStatus.
  reflexivity.
Qed.

(** C10: when the fetch of the composite target fails, the invocation calls
    neither UpdateStatus nor the patch of the status, so the cluster operators
    of the cluster are as before; it returns the error of the fetch, except
    that a target that is not found gives a nil error. *)
Theorem Reconcile_fetch_fails_no_write (req : Request) (w : World) (err : error) :
  client.answerGet (NamespacedName req) w = inr err ->
  let '(o, w', calls) := Reconcile req w in
  updateStatusCalls calls = []
  /\ patchCalls calls = []
  /\ clusteroperators w' = clusteroperators w
  /\ o = Returned Result0 (if client.IsNotFound err then None else Some err).
Proof.
  intros Hget. unfold Reconcile. rewrite (run_unfetched _ _ _ Hget). cbn.
  repeat split; reflexivity.
Qed.

Lemma Reconcile_fetch_fails_no_write_witness :
  client.answerGet (NamespacedName sampleRequest) emptyCluster =
    inr (client.NewNotFound aggregateCOName)
  /\ (let '(o, w', calls) := Reconcile sampleRequest emptyCluster in
      updateStatusCalls calls = []
      /\ patchCalls calls = []
      /\ clusteroperators w' = clusteroperators emptyCluster
      /\ o = Returned Result0 None).
Proof.
  split; [reflexivity|].
  exact (Reconcile_fetch_fails_no_write sampleRequest emptyCluster
           (client.NewNotFound aggregateCOName) eq_refl).
Defined.

(** C3: in an invocation that fetched its target and whose listing succeeded
    with no member, the status handed to the writer has Available True with
    the reason [No POs Found]; Degraded is False as the initial setter left
    it, no later setter touching it, and the invocation returns no error. *)
Theorem Reconcile_empty_fleet (req : Request) (w : World)
    (co : openshiftconfigv1.ClusterOperator) :
  client.answerGet (NamespacedName req) w = inl co ->
  client.answerList (consume w) = inl {| Items := [] |} ->
  let '(o, ex) := run req w in
  o = Returned Result0 None
  /\ (exists st,
        updateStatusCalls (journal ex) = [(co, st)]
        /\ aggregatedco.GetStatus (coBuilder ex) = st
        /\ openshiftconfigv1.Available st =
           Some {| openshiftconfigv1.AvailableStatus := openshiftconfigv1.ConditionTrue;
                   openshiftconfigv1.AvailableReason := "No POs Found";
                   openshiftconfigv1.AvailableMessage := EmptyString |}
        /\ openshiftconfigv1.Degraded st = Some openshiftconfigv1.ConditionFalse)
  /\ setterCalls (journal ex) =
     [CallWithProgressing openshiftconfigv1.ConditionTrue EmptyString;
      CallWithDegraded openshiftconfigv1.ConditionFalse;
      CallWithAvailable openshiftconfigv1.ConditionFalse EmptyString EmptyString;
      CallWithAvailable openshiftconfigv1.ConditionTrue EmptyString "No POs Found"].
Proof.
  intros Hget Hlist.
  pose proof (run_fetched_updateStatusCalls _ _ _ Hget) as Hcalls.
  pose proof (run_fetched _ _ _ Hget) as Hrun.
  destruct (run req w) as [o ex]. cbn [fst snd] in *.
  rewrite Hlist in Hrun. cbn [verdict Items length bool_decide fst snd] in Hrun.
  rewrite bool_decide_eq_true_2 in Hrun by done. cbn [fst snd] in Hrun.
  injection Hrun as -> Hex. subst ex.
  split; [reflexivity|]. split.
  - exists emptyFleetStatus. split; [exact Hcalls|]. repeat split.
  - cbn [journal]. setters_norm. rewrite writeCalls_no_setter. reflexivity.
Qed.

Lemma Reconcile_empty_fleet_witness :
  let w := sampleWorld [] [] in
  client.answerGet (NamespacedName sampleRequest) w = inl freshCO
  /\ client.answerList (consume w) = inl {| Items := [] |}
  /\ (run sampleRequest w).1 = Returned Result0 None
  /\ setterCalls (journal (run sampleRequest w).2) =
     initialCalls ++
     [CallWithAvailable openshiftconfigv1.ConditionTrue EmptyString "No POs Found"].
Proof.
  cbv zeta.
  pose proof (Reconcile_empty_fleet sampleRequest (sampleWorld [] []) freshCO
                eq_refl eq_refl) as H.
  destruct (run sampleRequest (sampleWorld [] [])) as [o ex].
  destruct H as (H1 & _ & H3).
  split; [reflexivity|]. split; [reflexivity|]. split; [exact H1 | exact H3].
Defined.

(** ** The state machine of the builder *)

Lemma inState_unique s s' st : inState s st -> inState s' st -> s = s'.
Proof.
  destruct s, s'; cbn; intros H1 H2; try reflexivity;
    repeat match goal with
           | H : exists _, _ |- _ => destruct H as [? H]
           end; subst; discriminate.
Qed.

(** The state reached after the listing answered [l], the setter calls that
    lead there, and the answers that lead to each state. *)
Lemma verdict_state (l : PlatformOperatorList + error) :
  exists s,
    inState s (verdict l).2
    /\ setterCalls (verdict l).1.2 = transitionCalls s (verdict l).2
    /\ (s = Initial <-> exists err, l = inr err)
    /\ (s = EmptyFleet <-> l = inl {| Items := [] |})
    /\ (s = Failing <->
        exists POList, l = inl POList /\ exists po, po ∈ Items POList /\ hasFailingCondition po)
    /\ (s = Healthy <->
        exists POList, l = inl POList /\ Items POList <> [] /\
          forall po, po ∈ Items POList -> ~ hasFailingCondition po).
Proof.
  destruct l as [[items]|err].
  - destruct items as [|po0 items].
    + exists EmptyFleet. cbn. repeat split; try done.
      * by intros [err Herr].
      * intros (POList & [= <-] & po & Hpo & _). cbn in Hpo. by apply not_elem_of_nil in Hpo.
      * intros (POList & [= <-] & Hne & _). done.
    + cbn [verdict Items length]. rewrite bool_decide_eq_false_2 by done.
      destruct (inspectPlatformOperators {| Items := po0 :: items |}) as [r|] eqn:Hr.
      * exists Failing. cbn. repeat split; try done.
        -- by exists (utilerror.AggError (FailingErrors r)).
        -- by intros [err Herr].
        -- intros _. exists {| Items := po0 :: items |}. split; [done|].
           apply inspect_is_Some. rewrite Hr. eauto.
        -- intros (POList & [= <-] & _ & Hnone). exfalso.
           assert (is_Some (inspectPlatformOperators {| Items := po0 :: items |})) as Hs
             by (rewrite Hr; eauto).
           apply inspect_is_Some in Hs as (po & Hpo & Hf). by apply (Hnone po).
      * exists Healthy. cbn. repeat split; try done.
        -- by intros [err Herr].
        -- intros (POList & [= <-] & Hs%inspect_is_Some). rewrite Hr in Hs. by destruct Hs.
        -- intros _. exists {| Items := po0 :: items |}. split; [done|]. split; [done|].
           intros po Hpo Hf.
           assert (is_Some (inspectPlatformOperators {| Items := po0 :: items |})) as Hs
             by (apply inspect_is_Some; eauto).
           rewrite Hr in Hs. by destruct Hs.
  - exists Initial. cbn. repeat split; try done.
    + eauto.
    + intros (POList & [=] & _).
    + intros (POList & [=] & _).
Qed.

(** C7, as stated, fails: when the fetch of the target fails, here because the
    cluster has no such object, the invocation ends without a setter call and
    without a call of the writer, and the status the builder holds is none of
    the four states. *)
Lemma terminal_state_every_invocation_counterexample :
  let '(o, ex) := run sampleRequest emptyCluster in
  o = Returned Result0 None
  /\ setterCalls (journal ex) = []
  /\ updateStatusCalls (journal ex) = []
  /\ forall s, ~ inState s (aggregatedco.GetStatus (coBuilder ex)).
Proof.
  rewrite (run_unfetched sampleRequest emptyCluster (client.NewNotFound aggregateCOName) eq_refl).
  split; [reflexivity|]. split; [reflexivity|]. split; [reflexivity|].
  intros [] H; cbn in H; try discriminate. destruct H as [m H]. discriminate.
Qed.

(** C7, amended: at the end of every invocation that fetched its target,
    exactly one state of the machine holds of the status of the builder, which
    is the status handed to the writer: the initial state when the listing
    failed, the empty-fleet state when it gave no member, the failing state
    when a member has a failing condition, the healthy state otherwise.  The
    setter calls of the invocation are the three initial ones followed by the
    calls of that one transition, so at most one terminal transition is taken.
    When the fetch fails no setter is called and nothing is handed to the
    writer. *)
Theorem Reconcile_one_terminal_state (req : Request) (w : World) :
  let '(o, ex) := run req w in
  let st := aggregatedco.GetStatus (coBuilder ex) in
  match client.answerGet (NamespacedName req) w with
  | inl co =>
    updateStatusCalls (journal ex) = [(co, st)]
    /\ exists s,
         inState s st
         /\ (forall s', inState s' st -> s' = s)
         /\ setterCalls (journal ex) = initialCalls ++ transitionCalls s st
         /\ (s = Initial <-> exists err, client.answerList (consume w) = inr err)
         /\ (s = EmptyFleet <-> client.answerList (consume w) = inl {| Items := [] |})
         /\ (s = Failing <->
             exists POList, client.answerList (consume w) = inl POList /\
               exists po, po ∈ Items POList /\ hasFailingCondition po)
         /\ (s = Healthy <->
             exists POList, client.answerList (consume w) = inl POList /\
               Items POList <> [] /\
               forall po, po ∈ Items POList -> ~ hasFailingCondition po)
  | inr _ =>
    setterCalls (journal ex) = [] /\ updateStatusCalls (journal ex) = []
  end.
Proof.
  destruct (client.answerGet (NamespacedName req) w) as [co|err] eqn:Hget.
  - pose proof (run_fetched_updateStatusCalls _ _ _ Hget) as Hcalls.
    pose proof (run_fetched _ _ _ Hget) as Hrun.
    destruct (run req w) as [o ex]. cbn [fst snd] in *.
    injection Hrun as -> Hex. subst ex. cbn zeta. split; [exact Hcalls|].
    destruct (verdict_state (client.answerList (consume w)))
      as (s & Hs & Hsetters & Hiffs).
    exists s. cbn [coBuilder aggregatedco.GetStatus aggregatedco.status journal].
    split; [exact Hs|]. split.
    { intros s' Hs'. exact (inState_unique _ _ _ Hs' Hs). }
    split; [|exact Hiffs].
    setters_norm. rewrite Hsetters, writeCalls_no_setter, setterCalls_nil, !app_nil_r.
    reflexivity.
  - rewrite (run_unfetched _ _ _ Hget). split; reflexivity.
Qed.

(** ** The combined message *)

Lemma string_app_cons c s t : String c s +:+ t = String c (s +:+ t).
Proof. reflexivity. Qed.

Lemma string_app_nil_r s : s +:+ EmptyString = s.
Proof. induction s as [|c s IH]; [reflexivity|]. by rewrite string_app_cons, IH. Qed.

Lemma string_app_assoc s1 s2 s3 : (s1 +:+ s2) +:+ s3 = s1 +:+ s2 +:+ s3.
Proof. induction s1 as [|c s1 IH]; [reflexivity|]. by rewrite !string_app_cons, IH. Qed.

Lemma joinWith_cons sep m ms : joinWith sep (m :: ms) = m +:+ prefixWith sep ms.
Proof.
  revert m. induction ms as [|m' ms IH]; intros m.
  - cbn. by rewrite string_app_nil_r.
  - change (joinWith sep (m :: m' :: ms)) with (m +:+ sep +:+ joinWith sep (m' :: ms)).
    by rewrite IH.
Qed.

(** The loop of the visitor from a set of messages already seen that is not
    empty: every new message is appended after a separator. *)
Lemma visit_fold (l : list error) (seenerrs : gset string) (result : string) :
  seenerrs <> ∅ ->
  exists seenerrs',
    foldl utilerror.visit1 (seenerrs, result) l =
      (seenerrs', result +:+ prefixWith ", " (firstOccurrences seenerrs (Error <$> l)))
    /\ size seenerrs' = size seenerrs + length (firstOccurrences seenerrs (Error <$> l)).
Proof.
  revert seenerrs result. induction l as [|e l IH]; intros seenerrs result Hne.
  - exists seenerrs. cbn. rewrite string_app_nil_r. split; [done|lia].
  - cbn [foldl fmap list_fmap firstOccurrences]. unfold utilerror.visit1 at 2.
    case_bool_decide as Hin.
    + apply IH. done.
    + assert (size (seenerrs ∪ {[Error e]}) = S (size seenerrs)) as Hsize.
      { rewrite size_union by set_solver. rewrite size_singleton. lia. }
      assert (size seenerrs <> 0) as Hpos by (by rewrite size_non_empty_iff; intros ?%leibniz_equiv).
      rewrite bool_decide_eq_true_2 by lia.
      destruct (IH (seenerrs ∪ {[Error e]}) ((result +:+ ", ") +:+ Error e)) as (s' & Hs' & Hsz).
      { set_solver. }
      exists s'. split.
      * rewrite Hs'. f_equal. cbn [prefixWith]. by rewrite !string_app_assoc.
      * rewrite Hsz, Hsize. cbn [length]. lia.
Qed.

Lemma firstOccurrences_fresh (seen : gset string) m ms :
  m ∉ seen -> firstOccurrences seen (m :: ms) = m :: firstOccurrences (seen ∪ {[ m ]}) ms.
Proof. intros H. cbn [firstOccurrences]. by rewrite bool_decide_eq_false_2. Qed.

Lemma combinedMessage_several m1 m2 ms :
  combinedMessage (m1 :: m2 :: ms) =
  match firstOccurrences ∅ (m1 :: m2 :: ms) with
  | [m] => m
  | fo => "[" +:+ joinWith ", " fo +:+ "]"
  end.
Proof. reflexivity. Qed.

(** The message of an aggregate is the combined message of its errors. *)
Lemma AggError_combined (agg : list error) :
  utilerror.AggError agg = combinedMessage (Error <$> agg).
Proof.
  destruct agg as [|e1 [|e2 agg]]; [reflexivity..|].
  change (Error <$> e1 :: e2 :: agg) with (Error e1 :: (Error <$> e2 :: agg)).
  change (Error <$> e2 :: agg) with (Error e2 :: (Error <$> agg)).
  rewrite combinedMessage_several, firstOccurrences_fresh by set_solver.
  change (Error e2 :: (Error <$> agg)) with (Error <$> e2 :: agg).
  unfold utilerror.AggError, utilerror.visit.
  change (foldl utilerror.visit1 (∅, EmptyString) (e1 :: e2 :: agg))
    with (foldl utilerror.visit1 (utilerror.visit1 (∅, EmptyString) e1) (e2 :: agg)).
  unfold utilerror.visit1 at 2.
  rewrite bool_decide_eq_false_2 by set_solver.
  assert (size (∅ ∪ {[Error e1]} : gset string) = 1) as Hone.
  { rewrite (left_id_L ∅ (∪)). apply size_singleton. }
  rewrite Hone. rewrite bool_decide_eq_false_2 by lia.
  destruct (visit_fold (e2 :: agg) (∅ ∪ {[Error e1]}) (EmptyString +:+ Error e1))
    as (s' & Hs' & Hsz); [set_solver|].
  rewrite Hs'. rewrite Hone in Hsz.
  destruct (firstOccurrences (∅ ∪ {[Error e1]}) (Error <$> e2 :: agg)) as [|m ms].
  - rewrite bool_decide_eq_true_2 by (rewrite Hsz; cbn; lia).
    cbn [prefixWith]. by rewrite string_app_nil_r.
  - rewrite bool_decide_eq_false_2 by (rewrite Hsz; cbn; lia).
    rewrite joinWith_cons. reflexivity.
Qed.

(** Two conditions of one member with the same reason give the same message
    twice; the aggregate shows it once. *)
Example combined_message_duplicates :
  (fun r => utilerror.AggError (FailingErrors r))
    <$> inspectPlatformOperators {| Items := [mkPO "A" ["SourceFailed"; "SourceFailed"]] |}
  = Some ("A is failing: " +:+ inQuotes "SourceFailed").
Proof. reflexivity. Qed.

Example combined_message_two_members :
  (fun r => utilerror.AggError (FailingErrors r))
    <$> inspectPlatformOperators
          {| Items := [mkPO "A" ["SourceFailed"]; mkPO "B" []; mkPO "C" ["ApplyFailed"]] |}
  = Some ("[A is failing: " +:+ inQuotes "SourceFailed" +:+
          ", C is failing: " +:+ inQuotes "ApplyFailed" +:+ "]").
Proof. reflexivity. Qed.

(** C2, as stated, fails: a member has a condition of reason SourceFailed, the
    listing of the members fails, and the status handed to the writer is the
    initial state, with Degraded False. *)
Lemma failing_member_list_error_counterexample :
  let w := sampleWorld [mkPO "B" ["SourceFailed"]] [None; Some (errorString "list failed")] in
  let '(o, ex) := run sampleRequest w in
  hasFailingCondition (mkPO "B" ["SourceFailed"])
  /\ mkPO "B" ["SourceFailed"] ∈ platformoperators w
  /\ o = Returned Result0 (Some (errorString "list failed"))
  /\ updateStatusCalls (journal ex) = [(freshCO, initialStatus)]
  /\ aggregatedco.GetStatus (coBuilder ex) = initialStatus
  /\ openshiftconfigv1.Degraded initialStatus <> Some openshiftconfigv1.ConditionTrue.
Proof.
  cbv zeta.
  rewrite (run_fetched sampleRequest
             (sampleWorld [mkPO "B" ["SourceFailed"]] [None; Some (errorString "list failed")])
             freshCO eq_refl).
  split.
  { exists (mkCondition "SourceFailed"). split; [left|]. left. reflexivity. }
  split; [left|]. split; [reflexivity|]. split; [reflexivity|]. split; [reflexivity|].
  discriminate.
Qed.

(** C2, amended: in an invocation that fetched its target and whose listing shows a
    member with a condition of reason SourceFailed or ApplyFailed, the status
    handed to the writer has Degraded True and Available False, the reason of
    Available being the constant [PO In An Error State] and its message the
    aggregate of the errors of the report: the messages in the order of the
    report, each at its first occurrence, joined into one string. *)
Theorem Reconcile_failing_member (req : Request) (w : World)
    (co : openshiftconfigv1.ClusterOperator) (POList : PlatformOperatorList) :
  client.answerGet (NamespacedName req) w = inl co ->
  client.answerList (consume w) = inl POList ->
  (exists po c, po ∈ Items POList /\ c ∈ Conditions (Status po) /\
     (metav1.Reason c = platformtypes.ReasonSourceFailed \/
      metav1.Reason c = platformtypes.ReasonApplyFailed)) ->
  let '(o, ex) := run req w in
  o = Returned Result0 None
  /\ exists r st,
       inspectPlatformOperators POList = Some r
       /\ updateStatusCalls (journal ex) = [(co, st)]
       /\ aggregatedco.GetStatus (coBuilder ex) = st
       /\ openshiftconfigv1.Degraded st = Some openshiftconfigv1.ConditionTrue
       /\ openshiftconfigv1.Available st =
          Some {| openshiftconfigv1.AvailableStatus := openshiftconfigv1.ConditionFalse;
                  openshiftconfigv1.AvailableReason := "PO In An Error State";
                  openshiftconfigv1.AvailableMessage :=
                    utilerror.AggError (FailingErrors r) |}
       /\ utilerror.NewAggregate (FailingErrors r) = Some (FailingErrors r)
       /\ utilerror.AggError (FailingErrors r) = combinedMessage (Error <$> FailingErrors r).
Proof.
  intros Hget Hlist (po & c & Hpo & Hc & Hreason).
  pose proof (run_fetched_updateStatusCalls _ _ _ Hget) as Hcalls.
  pose proof (run_fetched _ _ _ Hget) as Hrun.
  destruct (run req w) as [o ex]. cbn [fst snd] in *.
  assert (is_Some (inspectPlatformOperators POList)) as [r Hr].
  { apply inspect_is_Some. exists po. split; [done|]. by exists c. }
  assert (length (Items POList) <> 0) as Hlen.
  { destruct (Items POList); [by apply not_elem_of_nil in Hpo|done]. }
  rewrite Hlist in Hrun. cbn [verdict] in Hrun.
  rewrite bool_decide_eq_false_2, Hr in Hrun by done. cbn [fst snd] in Hrun.
  injection Hrun as -> Hex. subst ex.
  split; [reflexivity|].
  exists r, (failingStatus (utilerror.AggError (FailingErrors r))).
  split; [done|]. split; [exact Hcalls|]. repeat split.
  - pose proof (inspect_Some_errors_nonempty _ _ Hr) as Hne.
    by destruct (FailingErrors r).
  - apply AggError_combined.
Qed.

Lemma Reconcile_failing_member_witness :
  let w := sampleWorld [mkPO "A" []; mkPO "B" ["SourceFailed"]] [] in
  let POList := {| Items := [mkPO "A" []; mkPO "B" ["SourceFailed"]] |} in
  client.answerGet (NamespacedName sampleRequest) w = inl freshCO
  /\ client.answerList (consume w) = inl POList
  /\ (exists po c, po ∈ Items POList /\ c ∈ Conditions (Status po) /\
        (metav1.Reason c = platformtypes.ReasonSourceFailed \/
         metav1.Reason c = platformtypes.ReasonApplyFailed))
  /\ (run sampleRequest w).1 = Returned Result0 None.
Proof.
  cbv zeta.
  assert (exists po c,
            po ∈ Items {| Items := [mkPO "A" []; mkPO "B" ["SourceFailed"]] |} /\
            c ∈ Conditions (Status po) /\
            (metav1.Reason c = platformtypes.ReasonSourceFailed \/
             metav1.Reason c = platformtypes.ReasonApplyFailed)) as Hex.
  { exists (mkPO "B" ["SourceFailed"]), (mkCondition "SourceFailed").
    split; [right; left|]. split; [left|]. left. reflexivity. }
  pose proof (Reconcile_failing_member sampleRequest
                (sampleWorld [mkPO "A" []; mkPO "B" ["SourceFailed"]] []) freshCO
                {| Items := [mkPO "A" []; mkPO "B" ["SourceFailed"]] |}
                eq_refl eq_refl Hex) as H.
  destruct (run sampleRequest (sampleWorld [mkPO "A" []; mkPO "B" ["SourceFailed"]] []))
    as [o ex].
  destruct H as [H _].
  split; [reflexivity|]. split; [reflexivity|]. split; [exact Hex | exact H].
Defined.

(** ** Two invocations in a row *)

Lemma consume_no_fault w : faults w = [] -> consume w = w.
Proof. destruct w as [cos pos fs]. cbn. intros ->. reflexivity. Qed.

Lemma answerGet_inv key w co :
  client.answerGet key w = inl co ->
  answer w = None /\
  openshiftconfigv1.Name co = key /\
  clusteroperators w !! key = Some (openshiftconfigv1.Status co).
Proof.
  unfold client.answerGet. destruct (answer w); [done|].
  destruct (clusteroperators w !! key) as [st|]; [|done].
  intros [= <-]. done.
Qed.

Lemma run_fetched_patchCalls req w co :
  client.answerGet (NamespacedName req) w = inl co ->
  patchCalls (journal (run req w).2) =
  patchCalls (writeCalls co (verdict (client.answerList (consume w))).2 (consume (consume w))).
Proof.
  intros Hget. rewrite (run_fetched _ _ _ Hget). cbn [snd journal].
  rewrite !patchCalls_app, verdict_no_patch. cbn. by rewrite app_nil_r.
Qed.

Lemma writeCalls_same co w : writeCalls co (openshiftconfigv1.Status co) w = [].
Proof. unfold writeCalls. by rewrite bool_decide_eq_true_2. Qed.

Lemma writeWorld_same co w : writeWorld co (openshiftconfigv1.Status co) w = w.
Proof. unfold writeWorld. by rewrite bool_decide_eq_true_2. Qed.

Lemma patchCalls_writeCalls_length co st w : length (patchCalls (writeCalls co st w)) <= 1.
Proof.
  unfold writeCalls. case_bool_decide; [cbn; lia|]. destruct (answer w); cbn; lia.
Qed.

(** An invocation without a failing call leaves a world in which the same
    invocation finds the status it would write. *)
Lemma Reconcile_settles req w :
  faults w = [] ->
  let w1 := (Reconcile req w).1.2 in
  faults w1 = []
  /\ platformoperators w1 = platformoperators w
  /\ length (patchCalls (Reconcile req w).2) <= 1
  /\ match client.answerGet (NamespacedName req) w1 with
     | inl co' =>
       openshiftconfigv1.Status co' = (verdict (client.answerList w1)).2
     | inr _ => True
     end.
Proof.
  intros Hf. unfold Reconcile.
  destruct (client.answerGet (NamespacedName req) w) as [co|err] eqn:Hget.
  - pose proof (run_fetched_patchCalls _ _ _ Hget) as Hp.
    rewrite (run_fetched _ _ _ Hget) in *. cbn [fst snd world journal] in *.
    rewrite !(consume_no_fault w Hf) in *.
    set (st := (verdict (client.answerList w)).2) in *.
    apply answerGet_inv in Hget as (Hans & Hname & Hlookup).
    assert (client.answerList (writeWorld co st w) = client.answerList w) as Hlist.
    { unfold writeWorld, Writer.patched, client.answerList, answer, consume.
      case_bool_decide; [done|]. rewrite Hf. done. }
    split; [|split; [|split]].
    + unfold writeWorld, Writer.patched, consume. case_bool_decide; [done|].
      unfold answer. rewrite Hf. done.
    + unfold writeWorld, Writer.patched, consume. case_bool_decide; [done|].
      unfold answer. rewrite Hf. done.
    + rewrite Hp. apply patchCalls_writeCalls_length.
    + rewrite Hlist. fold st.
      unfold client.answerGet, writeWorld, Writer.patched, answer.
      case_bool_decide as Hst.
      * rewrite Hf, Hlookup. cbn. done.
      * rewrite Hf. cbn [faults clusteroperators tail]. rewrite Hname.
        rewrite lookup_alter_eq, Hlookup. cbn. done.
  - rewrite (run_unfetched _ _ _ Hget). cbn [fst snd world journal].
    rewrite (consume_no_fault w Hf), Hget. cbn. repeat split; try done. lia.
Qed.

Lemma Reconcile_settled req w :
  faults w = [] ->
  match client.answerGet (NamespacedName req) w with
  | inl co => openshiftconfigv1.Status co = (verdict (client.answerList w)).2
  | inr _ => True
  end ->
  patchCalls (Reconcile req w).2 = [] /\ (Reconcile req w).1.2 = w.
Proof.
  intros Hf Hst. unfold Reconcile.
  destruct (client.answerGet (NamespacedName req) w) as [co|err] eqn:Hget.
  - pose proof (run_fetched_patchCalls _ _ _ Hget) as Hp.
    pose proof (run_fetched _ _ _ Hget) as Hrun.
    rewrite !(consume_no_fault w Hf) in Hp, Hrun. rewrite <- Hst in Hp, Hrun.
    rewrite writeCalls_same in Hp. rewrite writeWorld_same in Hrun.
    destruct (run req w) as [o ex]. cbn [fst snd] in *. split; [exact Hp|].
    injection Hrun as _ Hex. subst ex. reflexivity.
  - rewrite (run_unfetched _ _ _ Hget). cbn [fst snd world journal].
    rewrite (consume_no_fault w Hf). done.
Qed.

(** C6, as stated, fails: the listing of the members fails once, in the first
    of two invocations over the same members; the first invocation writes the
    initial state, the second the healthy state: two writes. *)
Lemma pipeline_twice_two_writes_counterexample :
  let w := sampleWorld [mkPO "A" []] [None; Some (errorString "list failed")] in
  let '(o1, w1, calls1) := Reconcile sampleRequest w in
  let '(o2, w2, calls2) := Reconcile sampleRequest w1 in
  platformoperators w1 = platformoperators w
  /\ platformoperators w2 = platformoperators w
  /\ patchCalls calls1 = [(aggregateCOName, initialStatus)]
  /\ patchCalls calls2 = [(aggregateCOName, healthyStatus)]
  /\ clusteroperators w !! aggregateCOName = Some (aggregatedco.GetStatus aggregatedco.NewBuilder)
  /\ clusteroperators w1 !! aggregateCOName = Some initialStatus
  /\ clusteroperators w2 !! aggregateCOName = Some healthyStatus
  /\ length (patchCalls calls1 ++ patchCalls calls2) = 2.
Proof. vm_compute. repeat split. Qed.

(** C6, amended: the writer performs no write, and makes no call at all, when
    the desired status is identical to the status of the target it is given;
    and when no call to the member source or to the status store fails, two
    invocations in a row over the same members make at most one write, the
    second invocation making none and leaving the cluster as it found it. *)
Theorem pipeline_twice_at_most_one_write (req : Request) (w : World) :
  faults w = [] ->
  (forall existing newStatus ex,
     openshiftconfigv1.Status existing = newStatus ->
     Writer.UpdateStatus existing newStatus ex = (Next None, ex))
  /\ (let '(o1, w1, calls1) := Reconcile req w in
      let '(o2, w2, calls2) := Reconcile req w1 in
      platformoperators w1 = platformoperators w
      /\ patchCalls calls2 = []
      /\ w2 = w1
      /\ length (patchCalls calls1 ++ patchCalls calls2) <= 1).
Proof.
  intros Hf. split.
  - intros existing newStatus ex Heq. unfold Writer.UpdateStatus.
    rewrite bool_decide_eq_true_2 by exact Heq. reflexivity.
  - pose proof (Reconcile_settles req w Hf) as H1.
    destruct (Reconcile req w) as [[o1 w1] calls1]. cbn [fst snd] in H1.
    destruct H1 as (Hf1 & Hpos & Hlen & Hst).
    pose proof (Reconcile_settled req w1 Hf1 Hst) as H2.
    destruct (Reconcile req w1) as [[o2 w2] calls2]. cbn [fst snd] in H2.
    destruct H2 as [Hp2 Hw2].
    split; [exact Hpos|]. split; [exact Hp2|]. split; [exact Hw2|].
    rewrite Hp2, app_nil_r. exact Hlen.
Qed.

Lemma pipeline_twice_at_most_one_write_witness :
  let w := sampleWorld [mkPO "A" []; mkPO "B" ["ApplyFailed"]] [] in
  faults w = []
  /\ (let '(o1, w1, calls1) := Reconcile sampleRequest w in
      let '(o2, w2, calls2) := Reconcile sampleRequest w1 in
      platformoperators w1 = platformoperators w
      /\ patchCalls calls2 = []
      /\ w2 = w1
      /\ length (patchCalls calls1 ++ patchCalls calls2) <= 1).
Proof.
  cbv zeta. split; [reflexivity|].
  pose proof (pipeline_twice_at_most_one_write sampleRequest
                (sampleWorld [mkPO "A" []; mkPO "B" ["ApplyFailed"]] []) eq_refl) as H.
  destruct H as [_ H]. exact H.
Defined.

(** ** Further properties of the control loop *)

Lemma Reconcile_run req w :
  Reconcile req w = ((run req w).1, world (run req w).2, journal (run req w).2).
Proof. unfold Reconcile. by destruct (run req w). Qed.

(** The builder at the end of an invocation that fetched its target. *)
Lemma run_fetched_status req w co :
  client.answerGet (NamespacedName req) w = inl co ->
  aggregatedco.GetStatus (coBuilder (run req w).2) =
  (verdict (client.answerList (consume w))).2.
Proof. intros Hget. by rewrite (run_fetched _ _ _ Hget). Qed.

Lemma run_fetched_outcome req w co :
  client.answerGet (NamespacedName req) w = inl co ->
  (run req w).1 = Returned Result0 (verdict (client.answerList (consume w))).1.1.
Proof. intros Hget. by rewrite (run_fetched _ _ _ Hget). Qed.

Lemma run_fetched_setterCalls req w co :
  client.answerGet (NamespacedName req) w = inl co ->
  setterCalls (journal (run req w).2) =
  initialCalls ++ setterCalls (verdict (client.answerList (consume w))).1.2.
Proof.
  intros Hget. rewrite (run_fetched _ _ _ Hget). cbn [snd journal].
  rewrite !setterCalls_app, writeCalls_no_setter. cbn. by rewrite app_nil_r.
Qed.

(** X1: Reconcile never panics and always returns the empty result, so it
    never asks for a requeue; the error it returns is the error of the Get
    unless that is a not-found error, else the error of the List, else nil.
    An error of the status write is never returned. *)
Theorem Reconcile_returned_error (req : Request) (w : World) :
  (Reconcile req w).1.1 =
  Returned Result0
    match client.answerGet (NamespacedName req) w with
    | inr err => if client.IsNotFound err then None else Some err
    | inl _ =>
      match client.answerList (consume w) with
      | inr err => Some err
      | inl _ => None
      end
    end.
Proof.
  rewrite Reconcile_run. cbn [fst].
  destruct (client.answerGet (NamespacedName req) w) as [co|err] eqn:Hget.
  - rewrite (run_fetched_outcome _ _ _ Hget).
    destruct (client.answerList (consume w)) as [poList|err]; [|reflexivity].
    cbn [verdict]. case_bool_decide; [reflexivity|].
    by destruct (inspectPlatformOperators poList).
  - by rewrite (run_unfetched _ _ _ Hget).
Qed.

(** Case analysis on the summary of lines 84 to 107. *)
Ltac verdict_cases l :=
  let poList := fresh "poList" in
  let err := fresh "err" in
  destruct l as [poList|err]; cbn [verdict];
  [case_bool_decide; [|destruct (inspectPlatformOperators poList)]|].

Lemma loggedErrors_app j1 j2 : loggedErrors (j1 ++ j2) = loggedErrors j1 ++ loggedErrors j2.
Proof. unfold loggedErrors. apply omap_app. Qed.

Lemma verdict_loggedErrors l :
  loggedErrors (verdict l).1.2 =
  match l with
  | inr err => [(err, "error listing platformoperators")]
  | inl _ => []
  end.
Proof. verdict_cases l; reflexivity. Qed.

(** X2: an error of the status write is logged, with the text
    [error updating CO status], and goes no further: the invocation returns
    what it would have returned, the cluster operators are as before, and the
    only other error ever logged is that of the List. *)
Theorem Reconcile_write_error_logged (req : Request) (w : World)
    (co : openshiftconfigv1.ClusterOperator) (e : error) :
  client.answerGet (NamespacedName req) w = inl co ->
  openshiftconfigv1.Status co <> aggregatedco.GetStatus (coBuilder (run req w).2) ->
  answer (consume (consume w)) = Some e ->
  loggedErrors (journal (run req w).2) =
    match client.answerList (consume w) with
    | inr err => [(err, "error listing platformoperators")]
    | inl _ => []
    end ++ [(e, "error updating CO status")]
  /\ patchCalls (journal (run req w).2) =
     [(openshiftconfigv1.Name co, aggregatedco.GetStatus (coBuilder (run req w).2))]
  /\ clusteroperators (world (run req w).2) = clusteroperators w
  /\ (run req w).1 =
     Returned Result0
       match client.answerList (consume w) with
       | inr err => Some err
       | inl _ => None
       end.
Proof.
  intros Hget Hne Hfail.
  rewrite (run_fetched_status _ _ _ Hget) in *.
  pose proof (run_fetched_patchCalls _ _ _ Hget) as Hp.
  rewrite (run_fetched _ _ _ Hget) in *. cbn [fst snd journal world] in *.
  set (st := (verdict (client.answerList (consume w))).2) in *.
  assert (writeCalls co st (consume (consume w)) =
          [CallPatch (openshiftconfigv1.Name co) st; CallLogError e "error updating CO status"])
    as Hwc.
  { unfold writeCalls. rewrite bool_decide_eq_false_2 by exact Hne. by rewrite Hfail. }
  split; [|split; [|split]].
  - rewrite !loggedErrors_app, verdict_loggedErrors, Hwc. cbn.
    by destruct (client.answerList (consume w)).
  - rewrite Hp, Hwc. reflexivity.
  - unfold writeWorld, Writer.patched. rewrite bool_decide_eq_false_2 by exact Hne.
    by rewrite Hfail.
  - f_equal. subst st. clear. verdict_cases (client.answerList (consume w)); reflexivity.
Qed.

Lemma Reconcile_write_error_logged_witness :
  let w := sampleWorld [mkPO "A" []] [None; None; Some (errorString "conflict")] in
  client.answerGet (NamespacedName sampleRequest) w = inl freshCO
  /\ answer (consume (consume w)) = Some (errorString "conflict")
  /\ loggedErrors (journal (run sampleRequest w).2) =
     [(errorString "conflict", "error updating CO status")]
  /\ clusteroperators (world (run sampleRequest w).2) = clusteroperators w
  /\ (run sampleRequest w).1 = Returned Result0 None.
Proof.
  cbv zeta.
  assert (openshiftconfigv1.Status freshCO <>
          aggregatedco.GetStatus
            (coBuilder (run sampleRequest
               (sampleWorld [mkPO "A" []] [None; None; Some (errorString "conflict")])).2))
    as Hne by (vm_compute; discriminate).
  pose proof (Reconcile_write_error_logged sampleRequest
                (sampleWorld [mkPO "A" []] [None; None; Some (errorString "conflict")])
                freshCO (errorString "conflict") eq_refl Hne eq_refl) as H.
  destruct H as (H1 & _ & H3 & H4).
  split; [reflexivity|]. split; [reflexivity|]. split; [exact H1|]. split; [exact H3 | exact H4].
Defined.

Lemma filter_isWithProgressing_setterCalls j :
  filter (fun c => isWithProgressing c) (setterCalls j) =
  filter (fun c => isWithProgressing c) j.
Proof.
  induction j as [|c j IH]; [done|].
  rewrite setterCalls_cons, (filter_cons _ c j).
  destruct c; cbn [isSetter]; rewrite ?filter_cons; cbn; by rewrite IH.
Qed.

(** X3: in an invocation that fetched its target the Progressing condition is
    set exactly once, to True, by the initial call of line 80; no path sets
    it again, so the status handed to the writer has Progressing True in every
    terminal state, the healthy one included. *)
Theorem Reconcile_progressing_stays_true (req : Request) (w : World)
    (co : openshiftconfigv1.ClusterOperator) :
  client.answerGet (NamespacedName req) w = inl co ->
  filter (fun c => isWithProgressing c) (journal (run req w).2) =
    [CallWithProgressing openshiftconfigv1.ConditionTrue EmptyString]
  /\ openshiftconfigv1.Progressing (aggregatedco.GetStatus (coBuilder (run req w).2)) =
     Some {| openshiftconfigv1.ProgressingStatus := openshiftconfigv1.ConditionTrue;
             openshiftconfigv1.ProgressingReason := EmptyString |}.
Proof.
  intros Hget. split.
  - rewrite <- filter_isWithProgressing_setterCalls, (run_fetched_setterCalls _ _ _ Hget).
    rewrite filter_app. verdict_cases (client.answerList (consume w)); reflexivity.
  - rewrite (run_fetched_status _ _ _ Hget).
    verdict_cases (client.answerList (consume w)); reflexivity.
Qed.

Lemma Reconcile_progressing_stays_true_witness :
  let w := sampleWorld [mkPO "A" []] [] in
  client.answerGet (NamespacedName sampleRequest) w = inl freshCO
  /\ aggregatedco.GetStatus (coBuilder (run sampleRequest w).2) = healthyStatus
  /\ openshiftconfigv1.Progressing (aggregatedco.GetStatus (coBuilder (run sampleRequest w).2)) =
     Some {| openshiftconfigv1.ProgressingStatus := openshiftconfigv1.ConditionTrue;
             openshiftconfigv1.ProgressingReason := EmptyString |}.
Proof.
  cbv zeta.
  pose proof (Reconcile_progressing_stays_true sampleRequest (sampleWorld [mkPO "A" []] [])
                freshCO eq_refl) as H.
  destruct H as [_ H].
  split; [reflexivity|]. split; [reflexivity | exact H].
Defined.

Lemma writeCalls_kinds co st w :
  filter (fun c => isGet c) (writeCalls co st w) = []
  /\ filter (fun c => isList c) (writeCalls co st w) = []
  /\ filter (fun c => isUpdateStatus c) (writeCalls co st w) = [].
Proof. unfold writeCalls. case_bool_decide; [done|]. by destruct (answer w). Qed.

Lemma verdict_kinds l :
  filter (fun c => isGet c) (verdict l).1.2 = []
  /\ filter (fun c => isList c) (verdict l).1.2 = []
  /\ filter (fun c => isUpdateStatus c) (verdict l).1.2 = [].
Proof. verdict_cases l; done. Qed.

(** X4: the calls of an invocation follow one protocol.  The first call is the
    log line [reconciling request] and the last, on every exit path, the log
    line [finished reconciling request]; the Get is made exactly once; the
    List is made once when the Get succeeded and never otherwise; and when the
    Get succeeded UpdateStatus is called exactly once: no call of it comes
    before or after the one named, which comes after the List and after every
    setter call, so it carries the final status of the builder.  When the Get
    failed UpdateStatus is not called. *)
Theorem Reconcile_call_protocol (req : Request) (w : World) :
  let ex := (run req w).2 in
  head (journal ex) = Some (CallLogInfo "reconciling request" (NamespacedName req))
  /\ last (journal ex) = Some (CallLogInfo "finished reconciling request" (NamespacedName req))
  /\ filter (fun c => isGet c) (journal ex) = [CallGet (NamespacedName req)]
  /\ filter (fun c => isList c) (journal ex) =
     match client.answerGet (NamespacedName req) w with
     | inl _ => [CallList]
     | inr _ => []
     end
  /\ match client.answerGet (NamespacedName req) w with
     | inl co =>
       exists before after,
         journal ex =
           before ++ CallUpdateStatus co (aggregatedco.GetStatus (coBuilder ex)) :: after
         /\ filter (fun c => isUpdateStatus c) before = []
         /\ filter (fun c => isUpdateStatus c) after = []
         /\ filter (fun c => isUpdateStatus c) (journal ex) =
            [CallUpdateStatus co (aggregatedco.GetStatus (coBuilder ex))]
         /\ setterCalls after = []
         /\ filter (fun c => isList c) after = []
         /\ filter (fun c => isGet c) after = []
     | inr _ => filter (fun c => isUpdateStatus c) (journal ex) = []
     end.
Proof.
  cbv zeta.
  destruct (client.answerGet (NamespacedName req) w) as [co|err] eqn:Hget.
  - rewrite (run_fetched _ _ _ Hget). cbn [snd journal coBuilder aggregatedco.GetStatus
      aggregatedco.status].
    set (l := client.answerList (consume w)).
    destruct (writeCalls_kinds co (verdict l).2 (consume (consume w))) as (Hwg & Hwl & Hwu).
    destruct (verdict_kinds l) as (Hvg & Hvl & Hvu).
    split; [reflexivity|]. split.
    { rewrite !app_assoc. apply last_snoc. }
    split.
    { rewrite !filter_app, Hvg, Hwg. reflexivity. }
    split.
    { rewrite !filter_app, Hvl, Hwl. reflexivity. }
    exists ([CallLogInfo "reconciling request" (NamespacedName req); CallGet (NamespacedName req)]
              ++ initialCalls ++ [CallList] ++ (verdict l).1.2),
           (writeCalls co (verdict l).2 (consume (consume w))
              ++ [CallLogInfo "finished reconciling request" (NamespacedName req)]).
    split; [by rewrite <- !app_assoc|].
    split; [rewrite !filter_app, Hvu; reflexivity|].
    split; [rewrite filter_app, Hwu; reflexivity|].
    split; [rewrite !filter_app, Hvu, Hwu; reflexivity|].
    split; [rewrite setterCalls_app, writeCalls_no_setter; reflexivity|].
    split; [rewrite filter_app, Hwl; reflexivity|].
    rewrite filter_app, Hwg; reflexivity.
  - rewrite (run_unfetched _ _ _ Hget). repeat split.
Qed.

(** X5: when the target and the members are fetched, there is at least one
    member and no condition of any member has a failure reason, the status
    handed to the writer has Available True with the reason
    [POs Are Healthy] and the message [All POs in a successful state],
    Degraded False as first set, and no error is returned. *)
Theorem Reconcile_all_healthy (req : Request) (w : World)
    (co : openshiftconfigv1.ClusterOperator) (POList : PlatformOperatorList) :
  client.answerGet (NamespacedName req) w = inl co ->
  client.answerList (consume w) = inl POList ->
  Items POList <> [] ->
  (forall po c, po ∈ Items POList -> c ∈ Conditions (Status po) ->
     metav1.Reason c <> platformtypes.ReasonSourceFailed /\
     metav1.Reason c <> platformtypes.ReasonApplyFailed) ->
  (run req w).1 = Returned Result0 None
  /\ updateStatusCalls (journal (run req w).2) =
     [(co, {| openshiftconfigv1.Progressing :=
                Some {| openshiftconfigv1.ProgressingStatus := openshiftconfigv1.ConditionTrue;
                        openshiftconfigv1.ProgressingReason := EmptyString |};
              openshiftconfigv1.Degraded := Some openshiftconfigv1.ConditionFalse;
              openshiftconfigv1.Available :=
                Some {| openshiftconfigv1.AvailableStatus := openshiftconfigv1.ConditionTrue;
                        openshiftconfigv1.AvailableReason := "POs Are Healthy";
                        openshiftconfigv1.AvailableMessage :=
                          "All POs in a successful state" |} |})]
  /\ setterCalls (journal (run req w).2) =
     [CallWithProgressing openshiftconfigv1.ConditionTrue EmptyString;
      CallWithDegraded openshiftconfigv1.ConditionFalse;
      CallWithAvailable openshiftconfigv1.ConditionFalse EmptyString EmptyString;
      CallWithAvailable openshiftconfigv1.ConditionTrue
        "All POs in a successful state" "POs Are Healthy"].
Proof.
  intros Hget Hlist Hne Hhealthy.
  assert (inspectPlatformOperators POList = None) as Hnone.
  { destruct (inspectPlatformOperators POList) as [r|] eqn:Hr; [|done]. exfalso.
    assert (is_Some (inspectPlatformOperators POList)) as Hs by (rewrite Hr; eauto).
    apply inspect_is_Some in Hs as (po & Hpo & c & Hc & Hreason).
    destruct (Hhealthy po c Hpo Hc) as [H1 H2]. by destruct Hreason. }
  assert (length (Items POList) <> 0) as Hlen by (by destruct (Items POList)).
  assert (verdict (client.answerList (consume w)) =
          (None, [CallWithAvailable openshiftconfigv1.ConditionTrue
                    "All POs in a successful state" "POs Are Healthy"], healthyStatus)) as Hv.
  { rewrite Hlist. cbn [verdict]. rewrite bool_decide_eq_false_2 by exact Hlen.
    by rewrite Hnone. }
  rewrite (run_fetched_outcome _ _ _ Hget), (run_fetched_updateStatusCalls _ _ _ Hget),
    (run_fetched_status _ _ _ Hget), (run_fetched_setterCalls _ _ _ Hget), Hv.
  repeat split.
Qed.

Lemma Reconcile_all_healthy_witness :
  let w := sampleWorld [mkPO "A" ["InstallSuccessful"]; mkPO "B" []] [] in
  let POList := {| Items := [mkPO "A" ["InstallSuccessful"]; mkPO "B" []] |} in
  client.answerGet (NamespacedName sampleRequest) w = inl freshCO
  /\ client.answerList (consume w) = inl POList
  /\ Items POList <> []
  /\ (run sampleRequest w).1 = Returned Result0 None.
Proof.
  cbv zeta.
  assert (forall po c,
            po ∈ Items {| Items := [mkPO "A" ["InstallSuccessful"]; mkPO "B" []] |} ->
            c ∈ Conditions (Status po) ->
            metav1.Reason c <> platformtypes.ReasonSourceFailed /\
            metav1.Reason c <> platformtypes.ReasonApplyFailed) as Hh.
  { intros po c Hpo Hc. cbn in Hpo.
    apply elem_of_cons in Hpo as [-> | Hpo].
    - cbn in Hc. apply elem_of_cons in Hc as [-> | Hc]; [by split|].
      by apply not_elem_of_nil in Hc.
    - apply elem_of_cons in Hpo as [-> | Hpo]; [|by apply not_elem_of_nil in Hpo].
      cbn in Hc. by apply not_elem_of_nil in Hc. }
  pose proof (Reconcile_all_healthy sampleRequest
                (sampleWorld [mkPO "A" ["InstallSuccessful"]; mkPO "B" []] []) freshCO
                {| Items := [mkPO "A" ["InstallSuccessful"]; mkPO "B" []] |}
                eq_refl eq_refl ltac:(discriminate) Hh) as H.
  destruct H as [H _].
  split; [reflexivity|]. split; [reflexivity|]. split; [discriminate | exact H].
Defined.

(** X6: the status an invocation computes depends on the answer to the List
    alone: two invocations that fetched their targets and got the same
    answer, whatever the requests, the statuses the targets had and the rest
    of the two clusters, make the same setter calls, hand the same status to
    the writer and return the same outcome. *)
Theorem Reconcile_status_from_listing_only (req1 req2 : Request) (w1 w2 : World)
    (co1 co2 : openshiftconfigv1.ClusterOperator) :
  client.answerGet (NamespacedName req1) w1 = inl co1 ->
  client.answerGet (NamespacedName req2) w2 = inl co2 ->
  client.answerList (consume w1) = client.answerList (consume w2) ->
  aggregatedco.GetStatus (coBuilder (run req1 w1).2) =
    aggregatedco.GetStatus (coBuilder (run req2 w2).2)
  /\ setterCalls (journal (run req1 w1).2) = setterCalls (journal (run req2 w2).2)
  /\ (run req1 w1).1 = (run req2 w2).1
  /\ updateStatusCalls (journal (run req1 w1).2) =
     [(co1, aggregatedco.GetStatus (coBuilder (run req2 w2).2))].
Proof.
  intros Hget1 Hget2 Hlist.
  rewrite (run_fetched_updateStatusCalls _ _ _ Hget1).
  rewrite (run_fetched_status _ _ _ Hget1), (run_fetched_status _ _ _ Hget2).
  rewrite (run_fetched_setterCalls _ _ _ Hget1), (run_fetched_setterCalls _ _ _ Hget2).
  rewrite (run_fetched_outcome _ _ _ Hget1), (run_fetched_outcome _ _ _ Hget2).
  rewrite Hlist. repeat split.
Qed.

Lemma Reconcile_status_from_listing_only_witness :
  let pos := [mkPO "A" ["ApplyFailed"]] in
  let w1 := sampleWorld pos [] in
  let w2 := {| clusteroperators := {[ "other" := healthyStatus ]};
               platformoperators := pos; faults := [None] |} in
  let req2 := {| NamespacedName := "other" |} in
  client.answerGet (NamespacedName sampleRequest) w1 = inl freshCO
  /\ client.answerGet (NamespacedName req2) w2 =
     inl {| openshiftconfigv1.Name := "other"; openshiftconfigv1.Status := healthyStatus |}
  /\ client.answerList (consume w1) = client.answerList (consume w2)
  /\ aggregatedco.GetStatus (coBuilder (run sampleRequest w1).2) =
     aggregatedco.GetStatus (coBuilder (run req2 w2).2).
Proof.
  cbv zeta.
  pose proof (Reconcile_status_from_listing_only sampleRequest {| NamespacedName := "other" |}
                (sampleWorld [mkPO "A" ["ApplyFailed"]] [])
                {| clusteroperators := {[ "other" := healthyStatus ]};
                   platformoperators := [mkPO "A" ["ApplyFailed"]]; faults := [None] |}
                freshCO
                {| openshiftconfigv1.Name := "other"; openshiftconfigv1.Status := healthyStatus |}
                eq_refl eq_refl eq_refl) as H.
  destruct H as [H _].
  split; [reflexivity|]. split; [reflexivity|]. split; [reflexivity | exact H].
Defined.

(** ** Further properties of the inspector *)

Lemma filter_reasons (cs : list metav1.Condition) :
  filter (fun reason => isFailureReason reason) (metav1.Reason <$> cs) =
  metav1.Reason <$> filter (fun c => isFailureReason (metav1.Reason c)) cs.
Proof.
  induction cs as [|c cs IH]; [done|].
  rewrite fmap_cons, !filter_cons.
  destruct (isFailureReason (metav1.Reason c)); cbn; by rewrite IH.
Qed.

(** The errors of the report, from the names and the reasons alone. *)
Lemma reportEntries_errors_from_reasons po :
  (reportEntries po).*2 =
  (fun reason => errors.New (failingMessage (GetName po) reason))
    <$> filter (fun reason => isFailureReason reason) (reasonsOf po).
Proof.
  unfold reportEntries, matchingConditions, reasonsOf.
  rewrite filter_reasons, <- !list_fmap_compose. reflexivity.
Qed.

Lemma entries_errors_same_reasons l1 l2 :
  Forall2 sameNameAndReasons l1 l2 ->
  (l1 ≫= reportEntries).*2 = (l2 ≫= reportEntries).*2.
Proof.
  induction 1 as [|po1 po2 l1 l2 [Hname Hreasons] _ IH]; [done|].
  rewrite !bind_cons, !fmap_app, IH, !reportEntries_errors_from_reasons.
  by rewrite Hname, Hreasons.
Qed.

(** X7: the inspector reads nothing of a member but its name and the reasons
    of its conditions: two lists whose members agree, position by position,
    on the name and on the sequence of reasons give the same verdict and the
    same errors, whatever the types, statuses and messages of the conditions
    are.  A condition whose status is True counts as failing when its reason
    is in the vocabulary. *)
Theorem inspect_reads_names_and_reasons (POList1 POList2 : PlatformOperatorList) :
  Forall2 sameNameAndReasons (Items POList1) (Items POList2) ->
  FailingErrors <$> inspectPlatformOperators POList1 =
  FailingErrors <$> inspectPlatformOperators POList2.
Proof.
  intros H%entries_errors_same_reasons. rewrite !inspect_entries.
  destruct (Items POList1 ≫= reportEntries) as [|e1 es1],
           (Items POList2 ≫= reportEntries) as [|e2 es2]; try done.
  cbn in H |- *. by rewrite H.
Qed.

Lemma inspect_reads_names_and_reasons_witness :
  let po1 := {| Name := "A";
                Status := {| Conditions :=
                  [ {| metav1.Type_ := "Installed"; metav1.Status := metav1.ConditionFalse;
                       metav1.Reason := "ApplyFailed"; metav1.Message := "apply failed" |} ] |} |} in
  let po2 := {| Name := "A";
                Status := {| Conditions :=
                  [ {| metav1.Type_ := "Ready"; metav1.Status := metav1.ConditionTrue;
                       metav1.Reason := "ApplyFailed"; metav1.Message := EmptyString |} ] |} |} in
  Forall2 sameNameAndReasons [po1] [po2]
  /\ FailingErrors <$> inspectPlatformOperators {| Items := [po1] |} =
     FailingErrors <$> inspectPlatformOperators {| Items := [po2] |}
  /\ FailingErrors <$> inspectPlatformOperators {| Items := [po2] |} =
     Some [errors.New ("A is failing: " +:+ inQuotes "ApplyFailed")].
Proof.
  cbv zeta.
  match goal with
  | |- ?F /\ _ => assert F as Hf by (repeat constructor)
  end.
  split; [exact Hf|]. split; [|reflexivity].
  match goal with
  | |- _ <$> inspectPlatformOperators ?P1 = _ <$> inspectPlatformOperators ?P2 =>
    exact (inspect_reads_names_and_reasons P1 P2 Hf)
  end.
Defined.

Lemma reportEntries_healthy po : isFailingPO po = false -> reportEntries po = [].
Proof.
  unfold isFailingPO, reportEntries. intros H%bool_decide_eq_false.
  destruct (matchingConditions po); [done|]. by destruct H.
Qed.

Lemma entries_filter_failing (l : list PlatformOperator) :
  filter (fun po => isFailingPO po) l ≫= reportEntries = l ≫= reportEntries.
Proof.
  induction l as [|po l IH]; [done|].
  rewrite filter_cons. destruct (decide (isFailingPO po)) as [Hpo|Hpo].
  - by rewrite !bind_cons, IH.
  - apply Is_true_false_1 in Hpo.
    by rewrite bind_cons, (reportEntries_healthy _ Hpo), IH.
Qed.

(** X8: the members without a failing condition contribute nothing to the
    report: leaving them out of the list gives the same result, nil or not,
    with the same members and the same errors in the same order. *)
Theorem inspect_ignores_healthy_members (POList : PlatformOperatorList) :
  inspectPlatformOperators {| Items := filter (fun po => isFailingPO po) (Items POList) |} =
  inspectPlatformOperators POList.
Proof.
  rewrite !inspect_entries. cbn [Items]. by rewrite entries_filter_failing.
Qed.

(** X9: the order of the listing changes the order of the report and nothing
    else: two lists with the same members in another order give nil together,
    and otherwise reports whose members and whose errors are the same up to
    their order. *)
Theorem inspect_listing_order (POList1 POList2 : PlatformOperatorList) :
  Items POList1 ≡ₚ Items POList2 ->
  (inspectPlatformOperators POList1 = None <-> inspectPlatformOperators POList2 = None)
  /\ (forall r1 r2,
        inspectPlatformOperators POList1 = Some r1 ->
        inspectPlatformOperators POList2 = Some r2 ->
        FailingPOs r1 ≡ₚ FailingPOs r2 /\ FailingErrors r1 ≡ₚ FailingErrors r2).
Proof.
  intros Hperm.
  assert (Items POList1 ≫= reportEntries ≡ₚ Items POList2 ≫= reportEntries) as He
    by (by rewrite Hperm).
  split.
  - rewrite !inspect_entries.
    destruct (Items POList1 ≫= reportEntries) as [|e1 es1] eqn:H1,
             (Items POList2 ≫= reportEntries) as [|e2 es2] eqn:H2; try done.
    + by apply Permutation_nil_cons in He.
    + symmetry in He. by apply Permutation_nil_cons in He.
  - intros r1 r2 (_ & -> & ->)%inspect_Some (_ & -> & ->)%inspect_Some.
    by rewrite He.
Qed.

Lemma inspect_listing_order_witness :
  let l1 := [mkPO "A" ["SourceFailed"]; mkPO "B" []; mkPO "C" ["ApplyFailed"]] in
  let l2 := [mkPO "C" ["ApplyFailed"]; mkPO "A" ["SourceFailed"]; mkPO "B" []] in
  l1 ≡ₚ l2
  /\ (inspectPlatformOperators {| Items := l1 |} = None <->
      inspectPlatformOperators {| Items := l2 |} = None).
Proof.
  cbv zeta.
  assert ([mkPO "A" ["SourceFailed"]; mkPO "B" []; mkPO "C" ["ApplyFailed"]] ≡ₚ
          [mkPO "C" ["ApplyFailed"]; mkPO "A" ["SourceFailed"]; mkPO "B" []]) as Hperm.
  { symmetry. apply (Permutation_cons_append [_; _]). }
  split; [exact Hperm|].
  exact (proj1 (inspect_listing_order
                  {| Items := [mkPO "A" ["SourceFailed"]; mkPO "B" []; mkPO "C" ["ApplyFailed"]] |}
                  {| Items := [mkPO "C" ["ApplyFailed"]; mkPO "A" ["SourceFailed"]; mkPO "B" []] |}
                  Hperm)).
Defined.

(** ** Every failure is named in the message *)

Lemma occursIn_here m post : occursIn m (m +:+ post).
Proof. exists EmptyString, post. reflexivity. Qed.

Lemma occursIn_self m : occursIn m m.
Proof. exists EmptyString, EmptyString. by rewrite string_app_nil_r. Qed.

Lemma occursIn_app_l t m s : occursIn m s -> occursIn m (t +:+ s).
Proof.
  intros (pre & post & ->). exists (t +:+ pre), post. by rewrite string_app_assoc.
Qed.

Lemma occursIn_app_r t m s : occursIn m s -> occursIn m (s +:+ t).
Proof.
  intros (pre & post & ->). exists pre, (post +:+ t). by rewrite !string_app_assoc.
Qed.

Lemma firstOccurrences_elem (seen : gset string) msgs m :
  m ∈ msgs -> m ∈ seen \/ m ∈ firstOccurrences seen msgs.
Proof.
  revert seen. induction msgs as [|a msgs IH]; intros seen Hm.
  - by apply not_elem_of_nil in Hm.
  - cbn [firstOccurrences]. apply elem_of_cons in Hm as [-> | Hm].
    + case_bool_decide; [by left|]. right. left.
    + case_bool_decide as Ha.
      * by apply IH.
      * destruct (IH (seen ∪ {[a]}) Hm) as [Hin | Hin].
        -- apply elem_of_union in Hin as [Hin | Hin%elem_of_singleton]; [by left|].
           subst. right. left.
        -- right. by right.
Qed.

Lemma occursIn_prefixWith sep ms m : m ∈ ms -> occursIn m (prefixWith sep ms).
Proof.
  induction ms as [|a ms IH]; intros Hm.
  - by apply not_elem_of_nil in Hm.
  - cbn [prefixWith]. apply occursIn_app_l. apply elem_of_cons in Hm as [-> | Hm].
    + apply occursIn_here.
    + apply occursIn_app_l. by apply IH.
Qed.

Lemma occursIn_joinWith sep ms m : m ∈ ms -> occursIn m (joinWith sep ms).
Proof.
  destruct ms as [|a ms]; intros Hm.
  - by apply not_elem_of_nil in Hm.
  - rewrite joinWith_cons. apply elem_of_cons in Hm as [-> | Hm].
    + apply occursIn_here.
    + apply occursIn_app_l. by apply occursIn_prefixWith.
Qed.

Lemma occursIn_combinedMessage msgs m : m ∈ msgs -> occursIn m (combinedMessage msgs).
Proof.
  intros Hm. destruct msgs as [|m1 [|m2 msgs]].
  - by apply not_elem_of_nil in Hm.
  - apply elem_of_cons in Hm as [-> | Hm]; [apply occursIn_self|].
    by apply not_elem_of_nil in Hm.
  - rewrite combinedMessage_several.
    destruct (firstOccurrences_elem ∅ _ _ Hm) as [Hin | Hin]; [set_solver|].
    destruct (firstOccurrences ∅ (m1 :: m2 :: msgs)) as [|a [|b fo]] eqn:Hfo.
    + by apply not_elem_of_nil in Hin.
    + apply elem_of_cons in Hin as [-> | Hin]; [apply occursIn_self|].
      by apply not_elem_of_nil in Hin.
    + apply occursIn_app_l, occursIn_app_r. by apply occursIn_joinWith.
Qed.

Lemma entries_messages (items : list PlatformOperator) :
  Error <$> (items ≫= reportEntries).*2 =
  (items ≫= fun po =>
     (fun c => GetName po +:+ " is failing: " +:+ inQuotes (metav1.Reason c))
       <$> matchingConditions po).
Proof.
  rewrite !fmap_bind_list. apply bind_ext_list. intros po. apply reportEntries_messages.
Qed.

(** X10: no failure is lost on the way to the status: when the target and the
    members are fetched, then for every listed member and every condition of
    it whose reason is SourceFailed or ApplyFailed, the message of the
    Available condition handed to the writer contains the member name, the
    text [ is failing: ] and the reason between double quotes, even though the
    aggregate shows a repeated message once. *)
Theorem Reconcile_message_names_every_failure (req : Request) (w : World)
    (co : openshiftconfigv1.ClusterOperator) (POList : PlatformOperatorList)
    (po : PlatformOperator) (c : metav1.Condition) :
  client.answerGet (NamespacedName req) w = inl co ->
  client.answerList (consume w) = inl POList ->
  po ∈ Items POList ->
  c ∈ Conditions (Status po) ->
  metav1.Reason c = platformtypes.ReasonSourceFailed \/
  metav1.Reason c = platformtypes.ReasonApplyFailed ->
  occursIn (GetName po +:+ " is failing: " +:+ inQuotes (metav1.Reason c))
           (availableMessage (aggregatedco.GetStatus (coBuilder (run req w).2))).
Proof.
  intros Hget Hlist Hpo Hc Hreason.
  assert (is_Some (inspectPlatformOperators POList)) as [r Hr].
  { apply inspect_is_Some. exists po. split; [done|]. by exists c. }
  assert (length (Items POList) <> 0) as Hlen.
  { destruct (Items POList); [by apply not_elem_of_nil in Hpo|done]. }
  rewrite (run_fetched_status _ _ _ Hget), Hlist. cbn [verdict].
  rewrite bool_decide_eq_false_2, Hr by done. cbn [snd availableMessage failingStatus
    openshiftconfigv1.Available availableSlot openshiftconfigv1.AvailableMessage].
  rewrite AggError_combined. apply occursIn_combinedMessage.
  apply inspect_Some in Hr as (_ & _ & ->). rewrite entries_messages.
  apply list_elem_of_bind. exists po. split; [|done].
  apply list_elem_of_fmap. exists c. split; [done|].
  by apply matching_condition_iff.
Qed.

Lemma Reconcile_message_names_every_failure_witness :
  let pos := [mkPO "A" ["SourceFailed"; "SourceFailed"]; mkPO "B" ["ApplyFailed"]] in
  let w := sampleWorld pos [] in
  client.answerGet (NamespacedName sampleRequest) w = inl freshCO
  /\ client.answerList (consume w) = inl {| Items := pos |}
  /\ availableMessage (aggregatedco.GetStatus (coBuilder (run sampleRequest w).2)) =
     "[A is failing: " +:+ inQuotes "SourceFailed" +:+
     ", B is failing: " +:+ inQuotes "ApplyFailed" +:+ "]"
  /\ occursIn ("B is failing: " +:+ inQuotes "ApplyFailed")
       (availableMessage (aggregatedco.GetStatus (coBuilder (run sampleRequest w).2))).
Proof.
  cbv zeta.
  pose proof (Reconcile_message_names_every_failure sampleRequest
                (sampleWorld [mkPO "A" ["SourceFailed"; "SourceFailed"]; mkPO "B" ["ApplyFailed"]] [])
                freshCO
                {| Items := [mkPO "A" ["SourceFailed"; "SourceFailed"]; mkPO "B" ["ApplyFailed"]] |}
                (mkPO "B" ["ApplyFailed"]) (mkCondition "ApplyFailed")
                eq_refl eq_refl) as H.
  split; [reflexivity|]. split; [reflexivity|]. split; [reflexivity|].
  apply H.
  - right. left.
  - left.
  - right. reflexivity.
Defined.

(** X11: in an invocation that fetched its target, the status handed to the
    writer has Degraded True exactly when the listing succeeded and some
    listed member has a failing condition, and Available True exactly when
    the listing succeeded and no listed member has one (an empty listing
    included); the two are never True together, and when the listing failed
    both are False. *)
Theorem Reconcile_degraded_available_iff (req : Request) (w : World)
    (co : openshiftconfigv1.ClusterOperator) :
  client.answerGet (NamespacedName req) w = inl co ->
  let st := aggregatedco.GetStatus (coBuilder (run req w).2) in
  (openshiftconfigv1.Degraded st = Some openshiftconfigv1.ConditionTrue <->
   exists POList, client.answerList (consume w) = inl POList /\
     exists po, po ∈ Items POList /\ hasFailingCondition po)
  /\ (openshiftconfigv1.AvailableStatus <$> openshiftconfigv1.Available st =
        Some openshiftconfigv1.ConditionTrue <->
      exists POList, client.answerList (consume w) = inl POList /\
        forall po, po ∈ Items POList -> ~ hasFailingCondition po)
  /\ ~ (openshiftconfigv1.Degraded st = Some openshiftconfigv1.ConditionTrue /\
        openshiftconfigv1.AvailableStatus <$> openshiftconfigv1.Available st =
          Some openshiftconfigv1.ConditionTrue)
  /\ (forall err, client.answerList (consume w) = inr err ->
        openshiftconfigv1.Degraded st = Some openshiftconfigv1.ConditionFalse /\
        openshiftconfigv1.AvailableStatus <$> openshiftconfigv1.Available st =
          Some openshiftconfigv1.ConditionFalse).
Proof.
  intros Hget. cbv zeta. rewrite (run_fetched_status _ _ _ Hget).
  destruct (verdict_state (client.answerList (consume w)))
    as (s & Hs & _ & Hinit & Hempty & Hfail & Hhealthy).
  destruct s; cbn [inState] in Hs.
  - rewrite Hs. destruct (proj1 Hinit eq_refl) as [err Herr].
    split; [|split; [|split]].
    + split; [done|]. intros (POList & HP & _). by rewrite Herr in HP.
    + split; [done|]. intros (POList & HP & _). by rewrite Herr in HP.
    + by intros [? _].
    + done.
  - rewrite Hs. pose proof (proj1 Hempty eq_refl) as Hlist.
    split; [|split; [|split]].
    + split; [done|]. intros (POList & HP & po & Hpo & _).
      rewrite Hlist in HP. injection HP as <-. by apply not_elem_of_nil in Hpo.
    + split; [|done]. intros _. exists {| Items := [] |}. split; [done|].
      intros po Hpo. by apply not_elem_of_nil in Hpo.
    + by intros [? _].
    + intros err Herr. by rewrite Herr in Hlist.
  - destruct Hs as [msg Hs]. rewrite Hs.
    destruct (proj1 Hfail eq_refl) as (POList & Hlist & po & Hpo & Hf).
    split; [|split; [|split]].
    + split; [|done]. intros _. exists POList. eauto.
    + split; [done|]. intros (POList' & HP & Hall).
      rewrite Hlist in HP. injection HP as <-. by destruct (Hall po Hpo).
    + by intros [_ ?].
    + intros err Herr. by rewrite Herr in Hlist.
  - rewrite Hs. destruct (proj1 Hhealthy eq_refl) as (POList & Hlist & Hne & Hall).
    split; [|split; [|split]].
    + split; [done|]. intros (POList' & HP & po & Hpo & Hf).
      rewrite Hlist in HP. injection HP as <-. by destruct (Hall po Hpo).
    + split; [|done]. intros _. exists POList. eauto.
    + by intros [? _].
    + intros err Herr. by rewrite Herr in Hlist.
Qed.

Lemma Reconcile_degraded_available_iff_witness :
  let w := sampleWorld [mkPO "A" []; mkPO "B" ["SourceFailed"]] [] in
  client.answerGet (NamespacedName sampleRequest) w = inl freshCO
  /\ openshiftconfigv1.Degraded (aggregatedco.GetStatus (coBuilder (run sampleRequest w).2)) =
     Some openshiftconfigv1.ConditionTrue
  /\ exists POList, client.answerList (consume w) = inl POList /\
       exists po, po ∈ Items POList /\ hasFailingCondition po.
Proof.
  cbv zeta.
  pose proof (Reconcile_degraded_available_iff sampleRequest
                (sampleWorld [mkPO "A" []; mkPO "B" ["SourceFailed"]] []) freshCO eq_refl) as H.
  cbv zeta in H. destruct H as [[H _] _].
  split; [reflexivity|]. split; [reflexivity|]. apply H. reflexivity.
Defined.

(** ** The order of the report and of the combined message *)

(** The errors a member contributes, in the order of its conditions. *)
Lemma reportEntries_errors po :
  (reportEntries po).*2 =
  (fun c => errors.New (GetName po +:+ " is failing: " +:+ inQuotes (metav1.Reason c)))
    <$> matchingConditions po.
Proof.
  unfold reportEntries. rewrite <- list_fmap_compose.
  apply list_fmap_ext. intros i c Hc. cbn.
  assert (c ∈ matchingConditions po) as Hin by (apply list_elem_of_lookup; eauto).
  unfold failingMessage. rewrite Quote_failure_reason; [done|].
  apply matching_condition_iff in Hin as [_ Hin]. by apply isFailureReason_spec.
Qed.

Lemma reportEntries_elem po x :
  x ∈ reportEntries po ->
  exists c, c ∈ matchingConditions po /\
    x = (po, errors.New (GetName po +:+ " is failing: " +:+ inQuotes (metav1.Reason c))).
Proof.
  unfold reportEntries. intros (c & -> & Hc)%list_elem_of_fmap.
  exists c. split; [done|]. unfold failingMessage. rewrite Quote_failure_reason; [done|].
  apply matching_condition_iff in Hc as [_ Hc]. by apply isFailureReason_spec.
Qed.

(** The report of a concatenation, from the reports of its two parts. *)
Lemma inspect_app l1 l2 :
  inspectPlatformOperators {| Items := l1 ++ l2 |} =
  match inspectPlatformOperators {| Items := l1 |},
        inspectPlatformOperators {| Items := l2 |} with
  | Some r1, Some r2 =>
    Some {| FailingPOs := FailingPOs r1 ++ FailingPOs r2;
            FailingErrors := FailingErrors r1 ++ FailingErrors r2 |}
  | Some r1, None => Some r1
  | None, r2 => r2
  end.
Proof.
  rewrite !inspect_entries. cbn [Items]. rewrite bind_app.
  destruct (l1 ≫= reportEntries) as [|e1 es1], (l2 ≫= reportEntries) as [|e2 es2];
    try reflexivity.
  - by rewrite app_nil_r.
  - transitivity (Some {| FailingPOs := ((e1 :: es1) ++ (e2 :: es2)).*1;
                          FailingErrors := ((e1 :: es1) ++ (e2 :: es2)).*2 |});
      [reflexivity|].
    cbn [FailingPOs FailingErrors]. by rewrite !fmap_app.
Qed.

(** C8: inspection is a function of the member list, and its output follows
    the traversal.  For a report [r] of the list: the members of [r] are the
    members of the list in order, each repeated once per matching condition;
    the errors of [r] are, member after member and condition after condition,
    the messages built from the name and the reason; entry [i] of the errors
    is about entry [i] of the members; two entries of the report, one before
    the other, stem from two members of the list in the same order; and the
    combined message is the join of these messages in that order, each at its
    first occurrence.  The report of a concatenation is the concatenation of
    the reports of its parts.  Two runs on equal lists give equal reports and
    equal combined messages. *)
Theorem inspect_deterministic_order_preserving (POList : PlatformOperatorList) :
  (forall POList' : PlatformOperatorList,
     Items POList' = Items POList ->
     inspectPlatformOperators POList' = inspectPlatformOperators POList /\
     (fun r => utilerror.AggError (FailingErrors r)) <$> inspectPlatformOperators POList' =
     (fun r => utilerror.AggError (FailingErrors r)) <$> inspectPlatformOperators POList)
  /\ (forall r,
        inspectPlatformOperators POList = Some r ->
        FailingPOs r =
          (Items POList ≫= fun po => replicate (length (matchingConditions po)) po)
        /\ FailingErrors r =
          (Items POList ≫= fun po =>
             (fun c => errors.New (GetName po +:+ " is failing: " +:+
                                   inQuotes (metav1.Reason c)))
               <$> matchingConditions po)
        /\ utilerror.AggError (FailingErrors r) =
           combinedMessage
             (Items POList ≫= fun po =>
                (fun c => GetName po +:+ " is failing: " +:+ inQuotes (metav1.Reason c))
                  <$> matchingConditions po)
        /\ (forall i po e,
              FailingPOs r !! i = Some po -> FailingErrors r !! i = Some e ->
              exists c, c ∈ matchingConditions po /\
                e = errors.New (GetName po +:+ " is failing: " +:+
                                inQuotes (metav1.Reason c)))
        /\ (forall i j po1 po2,
              i <= j ->
              FailingPOs r !! i = Some po1 ->
              FailingPOs r !! j = Some po2 ->
              exists a b, a <= b /\ Items POList !! a = Some po1 /\
                          Items POList !! b = Some po2)
        /\ (forall i j e1 e2,
              i <= j ->
              FailingErrors r !! i = Some e1 ->
              FailingErrors r !! j = Some e2 ->
              exists a b po1 po2 c1 c2,
                a <= b /\ Items POList !! a = Some po1 /\ Items POList !! b = Some po2 /\
                c1 ∈ matchingConditions po1 /\ c2 ∈ matchingConditions po2 /\
                e1 = errors.New (GetName po1 +:+ " is failing: " +:+
                                 inQuotes (metav1.Reason c1)) /\
                e2 = errors.New (GetName po2 +:+ " is failing: " +:+
                                 inQuotes (metav1.Reason c2))))
  /\ (forall l1 l2,
        inspectPlatformOperators {| Items := l1 ++ l2 |} =
        match inspectPlatformOperators {| Items := l1 |},
              inspectPlatformOperators {| Items := l2 |} with
        | Some r1, Some r2 =>
          Some {| FailingPOs := FailingPOs r1 ++ FailingPOs r2;
                  FailingErrors := FailingErrors r1 ++ FailingErrors r2 |}
        | Some r1, None => Some r1
        | None, r2 => r2
        end)
  /\ (forall l1 l2,
        FailingPOs (collectPlatformOperators {| Items := l1 ++ l2 |}) =
          FailingPOs (collectPlatformOperators {| Items := l1 |}) ++
          FailingPOs (collectPlatformOperators {| Items := l2 |})
        /\ FailingErrors (collectPlatformOperators {| Items := l1 ++ l2 |}) =
          FailingErrors (collectPlatformOperators {| Items := l1 |}) ++
          FailingErrors (collectPlatformOperators {| Items := l2 |})).
Proof.
  split; [|split; [|split]].
  - intros [items'] Heq. cbn in Heq. destruct POList as [items]. cbn in Heq.
    subst items'. done.
  - intros r (_ & HP & HE)%inspect_Some. destruct r as [ps es].
    cbn [FailingPOs FailingErrors] in *. subst ps es.
    split; [|split; [|split; [|split; [|split]]]].
    + rewrite fmap_bind_list. apply bind_ext_list. intros po.
      apply reportEntries_members.
    + rewrite fmap_bind_list. apply bind_ext_list. intros po.
      apply reportEntries_errors.
    + by rewrite AggError_combined, entries_messages.
    + intros i po e Hi He.
      rewrite list_lookup_fmap in Hi. rewrite list_lookup_fmap in He.
      destruct ((Items POList ≫= reportEntries) !! i) as [[po' e']|] eqn:Hl; [|done].
      cbn in Hi, He. injection Hi as ->. injection He as ->.
      apply bind_lookup in Hl as (a & u & _ & Hu).
      pose proof (reportEntries_fst _ _ Hu) as Hfst. cbn in Hfst. subst u.
      apply reportEntries_elem in Hu as (c & Hc & Heq). injection Heq as ->. eauto.
    + intros i j po1 po2 Hij Hi Hj.
      rewrite list_lookup_fmap in Hi. rewrite list_lookup_fmap in Hj.
      destruct ((Items POList ≫= reportEntries) !! i) as [x1|] eqn:He1; [|done].
      destruct ((Items POList ≫= reportEntries) !! j) as [x2|] eqn:He2; [|done].
      cbn in Hi, Hj. injection Hi as <-. injection Hj as <-.
      destruct (bind_lookup_monotone _ _ _ _ _ _ Hij He1 He2)
        as (a & b & u & v & Hab & Ha & Hb & Hu & Hv).
      apply reportEntries_fst in Hu, Hv. subst u v. eauto.
    + intros i j e1 e2 Hij Hi Hj.
      rewrite list_lookup_fmap in Hi. rewrite list_lookup_fmap in Hj.
      destruct ((Items POList ≫= reportEntries) !! i) as [x1|] eqn:He1; [|done].
      destruct ((Items POList ≫= reportEntries) !! j) as [x2|] eqn:He2; [|done].
      cbn in Hi, Hj. injection Hi as <-. injection Hj as <-.
      destruct (bind_lookup_monotone _ _ _ _ _ _ Hij He1 He2)
        as (a & b & u & v & Hab & Ha & Hb & Hu & Hv).
      apply reportEntries_elem in Hu as (c1 & Hc1 & ->).
      apply reportEntries_elem in Hv as (c2 & Hc2 & ->).
      exists a, b, u, v, c1, c2. done.
  - apply inspect_app.
  - intros l1 l2. rewrite !collect_entries. cbn [Items FailingPOs FailingErrors].
    by rewrite bind_app, !fmap_app.
Qed.

Lemma inspect_deterministic_order_preserving_witness :
  let POList := {| Items := [mkPO "A" ["ApplyFailed"]; mkPO "B" []; mkPO "C" ["SourceFailed"]] |} in
  exists r,
    inspectPlatformOperators POList = Some r /\
    FailingPOs r = [mkPO "A" ["ApplyFailed"]; mkPO "C" ["SourceFailed"]] /\
    FailingErrors r =
      [errors.New ("A is failing: " +:+ inQuotes "ApplyFailed");
       errors.New ("C is failing: " +:+ inQuotes "SourceFailed")] /\
    utilerror.AggError (FailingErrors r) =
      "[A is failing: " +:+ inQuotes "ApplyFailed" +:+
      ", C is failing: " +:+ inQuotes "SourceFailed" +:+ "]" /\
    exists a b, a <= b /\ Items POList !! a = Some (mkPO "A" ["ApplyFailed"]) /\
                Items POList !! b = Some (mkPO "C" ["SourceFailed"]).
Proof.
  eexists. split; [reflexivity|].
  destruct (inspect_deterministic_order_preserving
              {| Items := [mkPO "A" ["ApplyFailed"]; mkPO "B" []; mkPO "C" ["SourceFailed"]] |})
    as (_ & H & _).
  destruct (H _ eq_refl) as (H1 & H2 & H3 & _ & H5 & _).
  split; [exact H1|]. split; [exact H2|]. split; [exact H3|].
  apply (H5 0 1); [lia|reflexivity|reflexivity].
Defined.

(** ** The deferred status write *)

(** What a call of the writer does to the state it runs in. *)
Lemma UpdateStatus_run co st exIn :
  Writer.UpdateStatus co st exIn =
  (Next (if bool_decide (openshiftconfigv1.Status co = st) then None else answer (world exIn)),
   {| world := writeWorld co st (world exIn);
      journal := journal exIn ++
        (if bool_decide (openshiftconfigv1.Status co = st) then []
         else [CallPatch (openshiftconfigv1.Name co) st]);
      coBuilder := coBuilder exIn;
      deferred := deferred exIn |}).
Proof.
  unfold Writer.UpdateStatus, writeWorld. case_bool_decide.
  - destruct exIn. unfold ret. cbn. by rewrite app_nil_r.
  - unfold Writer.Patch. go_steps. reflexivity.
Qed.

Lemma writeCalls_split co st w :
  writeCalls co st w =
  (if bool_decide (openshiftconfigv1.Status co = st) then []
   else [CallPatch (openshiftconfigv1.Name co) st]) ++
  match (if bool_decide (openshiftconfigv1.Status co = st) then None else answer w) with
  | Some e => [CallLogError e "error updating CO status"]
  | None => []
  end.
Proof. unfold writeCalls. case_bool_decide; [done|]. by destruct (answer w). Qed.

Lemma patchCalls_writeCalls co st w :
  patchCalls (writeCalls co st w) =
  if bool_decide (openshiftconfigv1.Status co = st) then []
  else [(openshiftconfigv1.Name co, st)].
Proof. unfold writeCalls. case_bool_decide; [done|]. by destruct (answer w). Qed.

(** C5: in an invocation that fetched its target the status write runs exactly
    once, however the body ends, and the invocation does not panic.
    UpdateStatus is called once, with the target as fetched and the status the
    builder holds when the function is left, and the call is really made: the
    world the invocation leaves is the one the writer leaves, the calls after
    it are those of the writer, then the log of its error if it failed, then
    the final log line.  So the patch is issued exactly when the status
    differs from the one fetched; when it goes through, the stored status of
    the target is the new one; when the status is the same or the patch fails,
    the store is as before.  When the listing of the members fails, that error
    is returned to the caller and the write runs all the same, with the
    initial state: Progressing True, Degraded False, Available False. *)
Theorem Reconcile_status_write_exactly_once (req : Request) (w : World)
    (co : openshiftconfigv1.ClusterOperator) :
  client.answerGet (NamespacedName req) w = inl co ->
  let ex := (run req w).2 in
  let o := (run req w).1 in
  let st := aggregatedco.GetStatus (coBuilder ex) in
  updateStatusCalls (journal ex) = [(co, st)]
  /\ (exists r err, o = Returned r err)
  /\ (exists before res exW,
        updateStatusCalls before = []
        /\ Writer.UpdateStatus co st
             {| world := consume (consume w);
                journal := before ++ [CallUpdateStatus co st];
                coBuilder := coBuilder ex;
                deferred := [DeferLogFinished req] |} = (Next res, exW)
        /\ world ex = world exW
        /\ journal ex =
           journal exW ++
           match res with
           | Some e => [CallLogError e "error updating CO status"]
           | None => []
           end ++
           [CallLogInfo "finished reconciling request" (NamespacedName req)])
  /\ patchCalls (journal ex) =
     (if bool_decide (openshiftconfigv1.Status co = st) then []
      else [(openshiftconfigv1.Name co, st)])
  /\ (openshiftconfigv1.Status co <> st ->
      answer (consume (consume w)) = None ->
      clusteroperators (world ex) !! NamespacedName req = Some st)
  /\ (openshiftconfigv1.Status co <> st ->
      forall e, answer (consume (consume w)) = Some e ->
      clusteroperators (world ex) = clusteroperators w
      /\ last (loggedErrors (journal ex)) = Some (e, "error updating CO status"))
  /\ (openshiftconfigv1.Status co = st ->
      clusteroperators (world ex) = clusteroperators w)
  /\ (forall err,
        client.answerList (consume w) = inr err ->
        o = Returned Result0 (Some err)
        /\ updateStatusCalls (journal ex) =
           [(co, {| openshiftconfigv1.Progressing :=
                      Some {| openshiftconfigv1.ProgressingStatus := openshiftconfigv1.ConditionTrue;
                              openshiftconfigv1.ProgressingReason := EmptyString |};
                    openshiftconfigv1.Degraded := Some openshiftconfigv1.ConditionFalse;
                    openshiftconfigv1.Available :=
                      Some {| openshiftconfigv1.AvailableStatus := openshiftconfigv1.ConditionFalse;
                              openshiftconfigv1.AvailableReason := EmptyString;
                              openshiftconfigv1.AvailableMessage := EmptyString |} |})]
        /\ patchCalls (journal ex) =
           (if bool_decide (openshiftconfigv1.Status co = initialStatus) then []
            else [(openshiftconfigv1.Name co, initialStatus)])).
Proof.
  intros Hget. cbv zeta.
  pose proof (run_fetched_updateStatusCalls _ _ _ Hget) as Hcalls.
  pose proof (verdict_never_panics req w) as Hret.
  pose proof (run_fetched_patchCalls _ _ _ Hget) as Hpatch.
  rewrite patchCalls_writeCalls in Hpatch.
  pose proof (run_fetched_outcome _ _ _ Hget) as Hout.
  pose proof (run_fetched_status _ _ _ Hget) as Hst.
  pose proof (answerGet_inv _ _ _ Hget) as (Hans & Hname & Hlookup).
  assert (world (run req w).2 =
          writeWorld co (verdict (client.answerList (consume w))).2 (consume (consume w)))
    as Hworld by (by rewrite (run_fetched _ _ _ Hget)).
  rewrite Hst in *.
  set (st := (verdict (client.answerList (consume w))).2) in *.
  split; [exact Hcalls|]. split; [exact Hret|].
  split; [|split; [exact Hpatch|split; [|split; [|split; [|]]]]].
  - exists ([CallLogInfo "reconciling request" (NamespacedName req); CallGet (NamespacedName req)]
              ++ initialCalls ++ [CallList] ++ (verdict (client.answerList (consume w))).1.2).
    eexists. eexists. split; [|split; [apply UpdateStatus_run|]].
    + rewrite !updateStatusCalls_app, verdict_no_updateStatus. reflexivity.
    + cbn [world journal]. split; [exact Hworld|].
      rewrite (run_fetched _ _ _ Hget). cbn [snd journal]. fold st.
      rewrite (writeCalls_split co st). rewrite <- !app_assoc. reflexivity.
  - intros Hne Hok. rewrite Hworld. unfold writeWorld, Writer.patched.
    rewrite bool_decide_eq_false_2 by exact Hne. rewrite Hok.
    cbn [clusteroperators]. rewrite Hname, lookup_alter_eq.
    change (clusteroperators (consume (consume w))) with (clusteroperators w).
    by rewrite Hlookup.
  - intros Hne e Hfail. split.
    + rewrite Hworld. unfold writeWorld, Writer.patched.
      rewrite bool_decide_eq_false_2 by exact Hne. by rewrite Hfail.
    + rewrite (run_fetched _ _ _ Hget). cbn [snd journal]. fold st.
      rewrite !loggedErrors_app, (writeCalls_split co st).
      rewrite bool_decide_eq_false_2 by exact Hne. rewrite Hfail.
      rewrite !app_assoc. cbn. rewrite app_nil_r. apply last_snoc.
  - intros Heq. rewrite Hworld. unfold writeWorld.
    by rewrite bool_decide_eq_true_2 by exact Heq.
  - intros err Hlist. subst st. rewrite Hlist in *. cbn [verdict fst snd] in *.
    split; [exact Hout|]. split; [exact Hcalls | exact Hpatch].
Qed.

Lemma Reconcile_status_write_exactly_once_witness :
  let w := sampleWorld [mkPO "A" ["SourceFailed"]] [None; Some (errorString "list failed")] in
  client.answerGet (NamespacedName sampleRequest) w = inl freshCO
  /\ client.answerList (consume w) = inr (errorString "list failed")
  /\ (run sampleRequest w).1 = Returned Result0 (Some (errorString "list failed"))
  /\ updateStatusCalls (journal (run sampleRequest w).2) = [(freshCO, initialStatus)]
  /\ patchCalls (journal (run sampleRequest w).2) = [(aggregateCOName, initialStatus)]
  /\ clusteroperators (world (run sampleRequest w).2) !! aggregateCOName = Some initialStatus.
Proof.
  cbv zeta.
  pose proof (Reconcile_status_write_exactly_once sampleRequest
                (sampleWorld [mkPO "A" ["SourceFailed"]] [None; Some (errorString "list failed")])
                freshCO eq_refl) as H.
  cbv zeta in H.
  destruct H as (_ & _ & _ & _ & Hland & _ & _ & Hlist).
  destruct (Hlist (errorString "list failed") eq_refl) as (H1 & H2 & H3).
  split; [reflexivity|]. split; [reflexivity|]. split; [exact H1|]. split; [exact H2|].
  split; [exact H3|].
  assert (aggregatedco.GetStatus
            (coBuilder (run sampleRequest
               (sampleWorld [mkPO "A" ["SourceFailed"]]
                  [None; Some (errorString "list failed")])).2) = initialStatus) as Hst
    by reflexivity.
  rewrite Hst in Hland. apply Hland; [discriminate | reflexivity].
Defined.
